(** * StateNode: a shallow embedding of [packages/core/src/StateNode.ts]

    The state-chart node class of the core package: construction of the
    node tree (key, id, path, type, the flat [idMap]), the memoised views
    [initialStateValue], [ownEvents] and [events], and the transition
    resolver [next].

    Conventions of the embedding.
    - A JS object used as a mapping whose iteration order matters
      ([config.states], [this.states]) is the list of its entries in
      [Object.keys] order; [idMap], [historyValue] and the candidate cache
      are only ever looked up by key and are finite maps.
    - A value that may be [undefined] is an [option]; the truthiness tests
      of the source ([a || b], [a ? b : c], [!a]) are written out.
    - A call that may throw returns an [outcome].
    - The back references [this.parent] and [this.machine] are represented
      by what the constructor reads through them (the parent's path, the
      machine's key and delimiter), see [ParentRef].
    - The plain objects the class creates itself (the candidate cache, the
      accumulator of [on], [EMPTY_OBJECT]) inherit from [Object.prototype]:
      reading them at the name of an inherited member finds that member,
      see [inherited]. *)

From Stdlib Require Import String Ascii List Bool Lia.
From stdpp Require Import base option list gmap strings pretty fin_maps.

Import ListNotations.
Open Scope string_scope.
Open Scope list_scope.
Set Warnings "-register-all".

(** ** JavaScript values used by the class *)

(** [StateValue | undefined]: a string, or a record of nested values. *)
Inductive StateValue : Type :=
| undefined : StateValue
| str (s : string) : StateValue
| obj (entries : list (string * StateValue)) : StateValue.

(** [EMPTY_OBJECT] (line 54). *)
Definition EMPTY_OBJECT : StateValue := obj [].

(** Truthiness of a string: only the empty string is falsy. *)
Definition truthy_string (s : string) : bool :=
  match s with EmptyString => false | String _ _ => true end.

(** Truthiness of a [StateValue | undefined]: every object is truthy,
    the empty one included. *)
Definition truthy (v : StateValue) : bool :=
  match v with
  | undefined => false
  | str s => truthy_string s
  | obj _ => true
  end.

(** [a || b] on an optional string. *)
Definition or_string (a : option string) (b : string) : string :=
  match a with
  | Some s => if truthy_string s then s else b
  | None => b
  end.

(** [Array.prototype.join] on an array of strings. *)
Definition join (sep : string) (parts : list string) : string :=
  String.concat sep parts.

(** A call either returns or throws an [Error] with a message. *)
Inductive outcome (A : Type) : Type :=
| Returns (a : A)
| Throws (message : string).
Arguments Returns {A} a.
Arguments Throws {A} message.

(** The names every plain object inherits from [Object.prototype].  A read
    [o[k]] of an object literal at one of them yields the inherited
    member, a function (the prototype itself for [__proto__]), unless [o]
    has an own property [k]: a truthy value that is neither an array nor
    iterable. *)
Definition Object_prototype_properties : list string :=
  [ "constructor"; "hasOwnProperty"; "isPrototypeOf"; "propertyIsEnumerable";
    "toLocaleString"; "toString"; "valueOf"; "__proto__";
    "__defineGetter__"; "__defineSetter__"; "__lookupGetter__";
    "__lookupSetter__" ].

Definition inherited (k : string) : bool :=
  bool_decide (k ∈ Object_prototype_properties).

(** A thrown value, as far as a [catch] that reads [err.message] into a
    template literal can tell it apart. *)
Inductive Thrown : Type :=
| thrown_Error (message : string)
| thrown_without_message
| thrown_nullish.

(** [`${err.message}`]: the message of an [Error] (or of any object that
    has one); ["undefined"] for any other value; for [null] and
    [undefined] the read itself raises a [TypeError] and there is no
    text. *)
Definition read_message (err : Thrown) : option string :=
  match err with
  | thrown_Error message => Some message
  | thrown_without_message => Some "undefined"
  | thrown_nullish => None
  end.

(** The messages of the [TypeError]s the engine raises on
    [for (... of f)] with a function [f], on [f.push(...)], and on
    [null.message]; the wording is the engine's (here that of V8) and
    carries nothing of the program's data. *)
Definition TypeError_not_iterable : string := "candidates is not iterable".
Definition TypeError_push_is_not_a_function : string :=
  "map[transition.eventType].push is not a function".
Definition TypeError_message_of_nullish : string :=
  "Cannot read property 'message' of null".

(** What a call of the guard evaluator does. *)
Inductive GuardCall : Type :=
| guard_returns (passed : bool)
| guard_throws (err : Thrown).

(** ** Node kinds and configuration *)

Inductive NodeType : Type := atomic | compound | parallel | final | history_type.

(** [config.history]: a boolean or one of the two mode names. *)
Inductive HistoryConfig : Type := history_false | history_true | history_shallow | history_deep.

(** [this.history]: [false | 'shallow' | 'deep']. *)
Inductive HistoryMode : Type := no_history | shallow | deep.

(** The part of [StateNodeConfig] the constructor reads for identity and
    structure.  Handlers, actions, invocations and metadata are normalised
    by helpers of other modules and enter below through [formatTransitions]. *)
Inductive StateNodeConfig : Type := Build_StateNodeConfig {
  config_key : option string;
  config_id : option string;
  config_delimiter : option string;
  config_type : option NodeType;
  config_initial : option string;
  config_states : option (list (string * StateNodeConfig));
  config_history : option HistoryConfig
}.

(** A constructed node.  [states] is [this.states] in key order (empty for
    [EMPTY_OBJECT]); [idMap] is the public field of line 164. *)
Inductive StateNode : Type := Build_StateNode {
  key : string;
  id : string;
  type : NodeType;
  path : list string;
  initial : option string;
  states : list (string * StateNode);
  history : HistoryMode;
  idMap : gmap string StateNode
}.

(** What a child reads through [this.parent]: [parent.path] and, through
    [parent.machine], the machine's [key] and [delimiter]. *)
Record ParentRef : Type := Build_ParentRef {
  parent_path : list string;
  machine_key : string;
  machine_delimiter : string
}.

(** [StateNodeOptions] (lines 56-59). *)
Record StateNodeOptions : Type := Build_StateNodeOptions {
  _key : string;
  _parent : option ParentRef
}.

(** [Object.assign(target, source)]: the entries of [source] overwrite
    those of [target]. *)
Definition Object_assign {A} (target source : gmap string A) : gmap string A :=
  source ∪ target.

(** [{ [k]: v, ...rest }]: the spread entries come later and win. *)
Definition computed_then_spread {A} (k : string) (v : A) (rest : gmap string A)
  : gmap string A :=
  rest ∪ {[ k := v ]}.

Section Construction.

(** [STATE_DELIMITER] of [./constants], which is not part of this file. *)
Variable STATE_DELIMITER : string.

(** The [delimiter] property of the machine node, declared by the
    [MachineNode] subclass; taken as a function of the root's config. *)
Variable MachineNode_delimiter : StateNodeConfig -> string.

(** [keys(config.states).length] is truthy. *)
Definition has_keys {A} (o : option (list A)) : bool :=
  match o with
  | Some (_ :: _) => true
  | _ => false
  end.

Definition truthy_history (h : option HistoryConfig) : bool :=
  match h with
  | Some history_true | Some history_shallow | Some history_deep => true
  | _ => false
  end.

(** The constructor (lines 166-236).  The first statement reads
    [this.parent] before the second one assigns it: at that point the
    field is still [undefined], which is what [this_parent_unassigned]
    records. *)
Fixpoint new_StateNode (config : StateNodeConfig) (options : StateNodeOptions)
  {struct config} : StateNode :=
  let this_parent_unassigned : option ParentRef := None in
  let isMachine := negb (bool_decide (is_Some this_parent_unassigned)) in
  let parent := _parent options in
  let this_key := or_string (config_key config) (_key options) in
  let machine_key_ :=
    match parent with Some p => machine_key p | None => this_key end in
  let machine_delimiter_ :=
    match parent with
    | Some p => machine_delimiter p
    | None => MachineNode_delimiter config
    end in
  let this_path :=
    match parent with Some p => parent_path p ++ [this_key] | None => [] end in
  let this_id :=
    or_string (config_id config)
      (join (if isMachine
             then or_string (config_delimiter config) STATE_DELIMITER
             else machine_delimiter_)
            (machine_key_ :: this_path)) in
  let this_type :=
    match config_type config with
    | Some t => t
    | None =>
        if has_keys (config_states config) then compound
        else if truthy_history (config_history config) then history_type
        else atomic
    end in
  let self := Build_ParentRef this_path machine_key_ machine_delimiter_ in
  let this_states :=
    match config_states config with
    | Some entries =>
        map (fun entry =>
               let '(k, stateConfig) := entry in
               (k, new_StateNode stateConfig
                     (Build_StateNodeOptions k (Some self))))
            entries
    | None => []
    end in
  let this_idMap :=
    fold_left (fun acc entry =>
                 let stateNode := snd entry in
                 Object_assign acc
                   (computed_then_spread (id stateNode) stateNode (idMap stateNode)))
              this_states ∅ in
  let this_history :=
    match config_history config with
    | Some history_true => shallow
    | Some history_shallow => shallow
    | Some history_deep => deep
    | _ => no_history
    end in
  Build_StateNode this_key this_id this_type this_path (config_initial config)
                  this_states this_history this_idMap.

End Construction.

(** ** Transitions, states and results *)

(** A guard descriptor; [cond.name || cond.type] names it in messages. *)
Record Guard : Type := Build_Guard {
  guard_name : option string;
  guard_type : string
}.

(** An action object, opaque to this class apart from its type tag. *)
Record ActionObject : Type := Build_ActionObject {
  action_type : string
}.

(** A formatted transition.  [stateIn] is the [in] property ([undefined]
    when absent); [target] is [undefined] or the resolved target nodes. *)
Module TransitionDefinition.
Record t : Type := Build {
  eventType : string;
  cond : option Guard;
  stateIn : StateValue;
  target : option (list StateNode);
  actions : list ActionObject;
  internal : bool
}.
End TransitionDefinition.

(** The state snapshot: what [next] reads of a [State]. *)
Record State (TContext : Type) : Type := Build_State {
  value : StateValue;
  context : TContext;
  historyValue : gmap string (list StateNode)
}.
Arguments Build_State {TContext} value context historyValue.
Arguments value {TContext} s.
Arguments context {TContext} s.
Arguments historyValue {TContext} s.

(** An event in its SCXML envelope; [name] is the event type. *)
Record SCXML_Event (TEvent : Type) : Type := Build_SCXML_Event {
  name : string;
  data : TEvent
}.
Arguments Build_SCXML_Event {TEvent} name data.
Arguments name {TEvent} s.
Arguments data {TEvent} s.

(** The result of [next]. *)
Module StateTransition.
Record t (TContext : Type) : Type := Build {
  transitions : list TransitionDefinition.t;
  configuration : list StateNode;
  entrySet : list StateNode;
  exitSet : list StateNode;
  source : State TContext;
  actions : list ActionObject
}.
Arguments Build {TContext} transitions configuration entrySet exitSet source actions.
Arguments transitions {TContext} t.
Arguments configuration {TContext} t.
Arguments entrySet {TContext} t.
Arguments exitSet {TContext} t.
Arguments source {TContext} t.
Arguments actions {TContext} t.
End StateTransition.

(** ** Effects of a resolution

    [next] writes the per-node candidate cache and calls the guard
    evaluator.  [candidates] is [this.__cache.candidates]; [guard_calls]
    records, oldest first, every guard handed to [evaluateGuard]. *)
Record World : Type := Build_World {
  candidates : gmap string (list TransitionDefinition.t);
  guard_calls : list Guard
}.

Definition Eff (A : Type) : Type := World -> outcome A * World.

Definition ret {A} (a : A) : Eff A := fun w => (Returns a, w).

Definition throw {A} (message : string) : Eff A := fun w => (Throws message, w).

Definition bind {A B} (c : Eff A) (k : A -> Eff B) : Eff B :=
  fun w =>
    match c w with
    | (Returns a, w') => k a w'
    | (Throws message, w') => (Throws message, w')
    end.

(** A pure call that may throw. *)
Definition lift {A} (o : outcome A) : Eff A := fun w => (o, w).

Notation "'let!' x ':=' c 'in' k" := (bind c (fun x => k))
  (at level 10, x name, c at level 200, k at level 200).

(** The line feed of the error message template. *)
Definition LF : string := String (ascii_of_nat 10) EmptyString.

(** ** The transition resolver *)

Section Next.

Context {TContext TEvent : Type}.

(** Helpers of [./stateUtils] and [./utils], which are not part of this
    file; each is taken as given.  [getCandidates] and the two expansion
    helpers are assumed to return. *)
Variable getCandidates : StateNode -> string -> list TransitionDefinition.t.
Variable evaluateGuard :
  StateNode -> Guard -> TContext -> SCXML_Event TEvent -> State TContext -> GuardCall.
Variable isStateId : string -> bool.
(** [state.matches(toStateValue(getStateNodeById(this, stateIn).path,
    this.machine.delimiter))]. *)
Variable matches_state_id : StateNode -> State TContext -> string -> outcome bool.
(** [matchesState(toStateValue(stateIn, this.machine.delimiter),
    path(this.path.slice(0, -2))(state.value))]. *)
Variable matches_relative : StateNode -> State TContext -> StateValue -> outcome bool.
Variable getRelativeStateNodes : StateNode -> State TContext -> list StateNode.
Variable nodesFromChild : StateNode -> StateNode -> list StateNode.

(** Lines 374-378: the cached candidates for the event name, computed
    and stored on the first request.  A cached array is truthy even
    when empty.  The cache is a plain object: at the name of an inherited
    member that it does not hold itself, the read yields that member,
    nothing is computed or stored, and the [for ... of] of line 378 raises
    a [TypeError]. *)
Definition cached_candidates (this : StateNode) (eventName : string)
  : Eff (list TransitionDefinition.t) :=
  fun w =>
    match candidates w !! eventName with
    | Some cached => (Returns cached, w)
    | None =>
        if inherited eventName then (Throws TypeError_not_iterable, w)
        else
          let computed := getCandidates this eventName in
          (Returns computed,
           Build_World (<[eventName := computed]> (candidates w)) (guard_calls w))
    end.

(** Lines 382-396: the "in" condition of a candidate. *)
Definition isInState (this : StateNode) (state : State TContext)
           (candidate : TransitionDefinition.t) : outcome bool :=
  let stateIn := TransitionDefinition.stateIn candidate in
  if truthy stateIn then
    match stateIn with
    | str s =>
        if isStateId s then matches_state_id this state s
        else matches_relative this state stateIn
    | _ => matches_relative this state stateIn
    end
  else Returns true.

(** One call of [evaluateGuard], recorded in the world. *)
Definition call_evaluateGuard (this : StateNode) (g : Guard)
           (resolvedContext : TContext) (_event : SCXML_Event TEvent)
           (state : State TContext) : World -> GuardCall * World :=
  fun w =>
    (evaluateGuard this g resolvedContext _event state,
     Build_World (candidates w) (guard_calls w ++ [g])).

(** The message of lines 404-410. *)
Definition guard_error_message (g : Guard) (eventName : string)
           (this : StateNode) (err_message : string) : string :=
  "Unable to evaluate guard '" +:+ or_string (guard_name g) (guard_type g)
    +:+ "' in transition for event '" +:+ eventName
    +:+ "' in state node '" +:+ id this +:+ "':" +:+ LF +:+ err_message.

(** The [catch] block of lines 403-411 for a thrown value [err]: the
    message of the error that leaves it.  Building the new message reads
    [err.message]; on [null] or [undefined] that read raises a [TypeError],
    which leaves the block instead. *)
Definition guard_catch_message (g : Guard) (eventName : string)
           (this : StateNode) (err : Thrown) : string :=
  match read_message err with
  | Some err_message => guard_error_message g eventName this err_message
  | None => TypeError_message_of_nullish
  end.

(** Lines 398-411: [!cond || evaluateGuard(...)] inside the [try]. *)
Definition guardPassed (this : StateNode) (state : State TContext)
           (_event : SCXML_Event TEvent) (candidate : TransitionDefinition.t)
  : Eff bool :=
  match TransitionDefinition.cond candidate with
  | None => ret true
  | Some g =>
      fun w =>
        match call_evaluateGuard this g (context state) _event state w with
        | (guard_returns passed, w') => (Returns passed, w')
        | (guard_throws err, w') =>
            (Throws (guard_catch_message g (name _event) this err), w')
        end
  end.

(** Lines 378-421: the loop; it stops at the first candidate whose guard
    and "in" condition both hold and yields it. *)
Fixpoint select (this : StateNode) (state : State TContext)
         (_event : SCXML_Event TEvent) (cands : list TransitionDefinition.t)
  : Eff (option TransitionDefinition.t) :=
  match cands with
  | [] => ret None
  | candidate :: rest =>
      let! isIn := lift (isInState this state candidate) in
      let! passed := guardPassed this state _event candidate in
      if passed && isIn then ret (Some candidate)
      else select this state _event rest
  end.

(** Lines 423-460: the result for a selected transition. *)
Definition resolve (this : StateNode) (state : State TContext)
           (selectedTransition : TransitionDefinition.t)
  : StateTransition.t TContext :=
  let nextStateNodes :=
    match TransitionDefinition.target selectedTransition with
    | Some nodes => nodes
    | None => []
    end in
  let actions := TransitionDefinition.actions selectedTransition in
  match nextStateNodes with
  | [] =>
      StateTransition.Build [selectedTransition]
        (if truthy (value state) then [this] else [])
        [] [] state actions
  | _ :: _ =>
      let allNextStateNodes :=
        concat (map (fun stateNode => getRelativeStateNodes stateNode state)
                    nextStateNodes) in
      let isInternal := TransitionDefinition.internal selectedTransition in
      let reentryNodes :=
        if isInternal then []
        else concat (map (fun nextStateNode => nodesFromChild this nextStateNode)
                         allNextStateNodes) in
      StateTransition.Build [selectedTransition]
        allNextStateNodes
        reentryNodes
        (if isInternal then [] else [this])
        state actions
  end.

(** Line 357: the test of the history short-circuit. *)
Definition recorded_history (this : StateNode) (state : State TContext)
  : option (list StateNode) :=
  match type this with
  | history_type => historyValue state !! id this
  | _ => None
  end.

(** [next] (lines 353-461).  [Returns None] is the [undefined] result. *)
Definition next (this : StateNode) (state : State TContext)
           (_event : SCXML_Event TEvent)
  : Eff (option (StateTransition.t TContext)) :=
  match recorded_history this state with
  | Some recorded =>
      ret (Some (StateTransition.Build [] recorded [] [] state []))
  | None =>
      let eventName := name _event in
      let! cands := cached_candidates this eventName in
      let! selected := select this state _event cands in
      match selected with
      | None => ret None
      | Some selectedTransition =>
          ret (Some (resolve this state selectedTransition))
      end
  end.

End Next.

(** ** Derived views of a node *)

(** Every object reference is truthy, [EMPTY_OBJECT] included. *)
Definition truthy_object {A} (o : A) : bool := true.

(** A JS [Set] of strings: its elements in insertion order. *)
Definition Set_add (s : list string) (x : string) : list string :=
  if bool_decide (x ∈ s) then s else s ++ [x].

Definition new_Set (xs : list string) : list string := fold_left Set_add xs [].

(** [this.states[k]] among the own properties of [this.states], the
    children. *)
Fixpoint get_state {A} (entries : list (string * A)) (k : string) : option A :=
  match entries with
  | [] => None
  | (k', a) :: rest => if String.eqb k' k then Some a else get_state rest k
  end.

(** Modelled from the spec: [isLeafNode] of [./stateUtils], which is not
    part of this file; the leaves are the atomic and the final nodes. *)
Definition isLeafNode (stateNode : StateNode) : bool :=
  match type stateNode with
  | atomic | final => true
  | _ => false
  end.

(** Modelled from the spec: [mapFilterValues] of [./utils], which is not
    part of this file, as [initialStateValue] uses it: one entry per child
    that is not a history node, holding [state.initialStateValue ||
    EMPTY_OBJECT]; a child whose value throws makes the whole call throw. *)
Fixpoint mapFilterValues_initial
         (entries : list (string * (StateNode * outcome StateValue)))
  : outcome (list (string * StateValue)) :=
  match entries with
  | [] => Returns []
  | (k, (stateNode, o)) :: rest =>
      match type stateNode with
      | history_type => mapFilterValues_initial rest
      | _ =>
          match o with
          | Throws message => Throws message
          | Returns v =>
              match mapFilterValues_initial rest with
              | Throws message => Throws message
              | Returns vs => Returns ((k, if truthy v then v else EMPTY_OBJECT) :: vs)
              end
          end
      end
  end.

(** [initialStateValue] (lines 463-493).  The getter is memoised on a
    truthy result; the computation is deterministic, so the cache is not
    modelled.  [inits] pairs each child with the outcome of its own getter,
    which the source only evaluates for the children it reads.
    [this.states] is a plain object: at the name of an inherited member
    that is no child, [this.states[this.initial]] is that member, a
    function; the check of line 477 passes, the function is no leaf node
    and has no [initialStateValue], and the result is the record
    [{ [initial]: undefined }]. *)
Fixpoint initialStateValue (this : StateNode) : outcome StateValue :=
  let inits :=
    map (fun entry => (fst entry, (snd entry, initialStateValue (snd entry))))
        (states this) in
  match type this with
  | parallel =>
      match mapFilterValues_initial inits with
      | Returns entries => Returns (obj entries)
      | Throws message => Throws message
      end
  | _ =>
      match initial this with
      | Some initial_ =>
          match get_state inits initial_ with
          | None =>
              if inherited initial_ then Returns (obj [(initial_, undefined)])
              else
                Throws ("Initial state '" +:+ initial_ +:+ "' not found on '"
                          +:+ key this +:+ "'")
          | Some (child, child_initial) =>
              if isLeafNode child then Returns (str initial_)
              else
                match child_initial with
                | Returns v => Returns (obj [(initial_, v)])
                | Throws message => Throws message
                end
          end
      | None => Returns undefined
      end
  end.

(** [stateIds] (lines 525-532). *)
Fixpoint stateIds (this : StateNode) : list string :=
  let childStateIds :=
    concat (map (fun entry => stateIds (snd entry)) (states this)) in
  [id this] ++ childStateIds.

(** The nodes strictly below a node, in document order. *)
Fixpoint descendants (this : StateNode) : list StateNode :=
  concat (map (fun entry => snd entry :: descendants (snd entry)) (states this)).

Section Events.

(** [formatTransitions] of [./stateUtils], which is not part of this
    file: the formatted transitions of a node, in declaration order. *)
Variable formatTransitions : StateNode -> list TransitionDefinition.t.

(** [transitions] (lines 334-340); memoised, the cache is not modelled. *)
Definition transitions (this : StateNode) : list TransitionDefinition.t :=
  formatTransitions this.

(** The filter of lines 566-572: a transition with no target, no action
    and the internal flag is inert and dropped. *)
Definition not_inert (transition : TransitionDefinition.t) : bool :=
  negb (negb (bool_decide (is_Some (TransitionDefinition.target transition)))
        && negb (negb (Nat.eqb (length (TransitionDefinition.actions transition)) 0))
        && TransitionDefinition.internal transition).

(** [ownEvents] (lines 563-577). *)
Definition ownEvents (this : StateNode) : list string :=
  new_Set (map TransitionDefinition.eventType
               (filter (fun transition => Is_true (not_inert transition))
                       (transitions this))).

(** [events] (lines 537-556); memoised, the cache is not modelled.  Both
    tests [if (states)] and [if (state.states)] are on object
    references. *)
Fixpoint events (this : StateNode) : list string :=
  let events0 := new_Set (ownEvents this) in
  if truthy_object (states this) then
    fold_left
      (fun acc entry =>
         let state := snd entry in
         if truthy_object (states state)
         then fold_left Set_add (events state) acc
         else acc)
      (states this) events0
  else events0.

(** The events of all children, in key order. *)
Definition children_events (children : list (string * StateNode)) : list string :=
  concat (map (fun entry => events (snd entry)) children).

(** [handles] (lines 347-351), on an event type. *)
Definition handles (this : StateNode) (eventType : string) : bool :=
  bool_decide (eventType ∈ events this).

End Events.

(** ** The event map and the invoked services *)

Section Handlers.

Variable formatTransitions : StateNode -> list TransitionDefinition.t.

(** The reducer of lines 314-318: [map[type] = map[type] || []] (an array
    is truthy, so an existing bucket is kept), then [push].  The
    accumulator is a plain object: at the name of an inherited member the
    read yields that member, a function, which is kept, and the [push]
    raises a [TypeError]. *)
Definition on_reducer (map : gmap string (list TransitionDefinition.t))
           (transition : TransitionDefinition.t)
  : outcome (gmap string (list TransitionDefinition.t)) :=
  let eventType := TransitionDefinition.eventType transition in
  match map !! eventType with
  | Some bucket => Returns (<[eventType := bucket ++ [transition]]> map)
  | None =>
      if inherited eventType then Throws TypeError_push_is_not_a_function
      else Returns (<[eventType := [transition]]> map)
  end.

(** [array.reduce(reducer, {})]: a throw of the reducer ends the
    reduction. *)
Fixpoint on_reduce (transitions : list TransitionDefinition.t)
         (map : gmap string (list TransitionDefinition.t))
  : outcome (gmap string (list TransitionDefinition.t)) :=
  match transitions with
  | [] => Returns map
  | transition :: rest =>
      match on_reducer map transition with
      | Returns map' => on_reduce rest map'
      | Throws message => Throws message
      end
  end.

(** [on] (lines 306-321); memoised, the cache is not modelled. *)
Definition on (this : StateNode)
  : outcome (gmap string (list TransitionDefinition.t)) :=
  on_reduce (transitions formatTransitions this) ∅.

End Handlers.

(** [invokeConfig.src]: the name of a service, or an implementation. *)
Inductive InvokeSrc (Implementation : Type) : Type :=
| src_string (s : string)
| src_implementation (implementation : Implementation).
Arguments src_string {Implementation} s.
Arguments src_implementation {Implementation} implementation.

(** What the getter reads of the result of [toInvokeConfig]: its [id] and
    [src], and its [type] property, if it has one. *)
Record InvokeConfig (Implementation : Type) : Type := Build_InvokeConfig {
  invokeConfig_type : option string;
  invokeConfig_id : option string;
  invokeConfig_src : InvokeSrc Implementation
}.
Arguments Build_InvokeConfig {Implementation} invokeConfig_type invokeConfig_id invokeConfig_src.
Arguments invokeConfig_type {Implementation} i.
Arguments invokeConfig_id {Implementation} i.
Arguments invokeConfig_src {Implementation} i.

(** [{ type: actionTypes.invoke, ...invokeConfig, src, id }]: the spread
    comes after [type] and before [src] and [id], so a [type] of the
    config replaces the tag, while [src] and [id] are the resolved ones;
    [invoke_config] holds the properties spread. *)
Record InvokeDefinition (Implementation : Type) : Type := Build_InvokeDefinition {
  invoke_type : string;
  invoke_config : InvokeConfig Implementation;
  invoke_src : string;
  invoke_id : string
}.
Arguments Build_InvokeDefinition {Implementation} invoke_type invoke_config invoke_src invoke_id.
Arguments invoke_type {Implementation} i.
Arguments invoke_config {Implementation} i.
Arguments invoke_src {Implementation} i.
Arguments invoke_id {Implementation} i.

(** What the getter reads and writes: [this.__cache.invoke] and the shared
    table [this.machine.options.services], a plain object (line 287 builds
    it as an object literal). *)
Record InvokeWorld (Implementation : Type) : Type := Build_InvokeWorld {
  invoke_cache : option (list (InvokeDefinition Implementation));
  services : gmap string Implementation
}.
Arguments Build_InvokeWorld {Implementation} invoke_cache services.
Arguments invoke_cache {Implementation} i.
Arguments services {Implementation} i.

Section Invoke.

Context {Invocable Implementation : Type}.

(** [toInvokeConfig] of [./utils] and [actionTypes.invoke], which are not
    part of this file. *)
Variable toInvokeConfig : Invocable -> string -> InvokeConfig Implementation.
Variable actionTypes_invoke : string.

(** [`${this.id}:invocation[${i}]`] (line 274). *)
Definition invocation_id (this : StateNode) (i : nat) : string :=
  id this +:+ ":invocation[" +:+ pretty i +:+ "]".

(** [services[resolvedSrc]] is truthy: a stored implementation is, and so
    is the member the table, a plain object, inherits under that name. *)
Definition service_found (table : gmap string Implementation) (src : string)
  : bool :=
  bool_decide (is_Some (table !! src)) || inherited src.

(** The callback of lines 273-299 at index [i]: the definition it returns
    and the service table it leaves. *)
Definition invoke_callback (this : StateNode) (invocable : Invocable) (i : nat)
           (table : gmap string Implementation)
  : InvokeDefinition Implementation * gmap string Implementation :=
  let id_ := invocation_id this i in
  let invokeConfig := toInvokeConfig invocable id_ in
  let resolvedId := or_string (invokeConfig_id invokeConfig) id_ in
  let resolvedSrc :=
    match invokeConfig_src invokeConfig with
    | src_string s => s
    | src_implementation _ => resolvedId
    end in
  let table' :=
    match invokeConfig_src invokeConfig with
    | src_implementation implementation =>
        if service_found table resolvedSrc then table
        else <[resolvedSrc := implementation]> table
    | src_string _ => table
    end in
  (Build_InvokeDefinition
     (default actionTypes_invoke (invokeConfig_type invokeConfig))
     invokeConfig resolvedSrc resolvedId,
   table').

(** [array.map(callback)] from index [i] on, threading the table. *)
Fixpoint invoke_map (this : StateNode) (i : nat) (invocables : list Invocable)
         (table : gmap string Implementation)
  : list (InvokeDefinition Implementation) * gmap string Implementation :=
  match invocables with
  | [] => ([], table)
  | invocable :: rest =>
      let '(definition, table1) := invoke_callback this invocable i table in
      let '(definitions, table2) := invoke_map this (S i) rest table1 in
      (definition :: definitions, table2)
  end.

(** [invoke] (lines 270-301); [config_invoke] is
    [toArray(this.config.invoke)].  A cached array is truthy. *)
Definition invoke (this : StateNode) (config_invoke : list Invocable)
           (w : InvokeWorld Implementation)
  : list (InvokeDefinition Implementation) * InvokeWorld Implementation :=
  match invoke_cache w with
  | Some cached => (cached, w)
  | None =>
      let '(definitions, table) := invoke_map this 0 config_invoke (services w) in
      (definitions, Build_InvokeWorld (Some definitions) table)
  end.

End Invoke.

(** A definition is settled in a table when, if its implementation is an
    anonymous one, something is found in the table under the definition's
    src. *)
Definition settled {Implementation : Type} (table : gmap string Implementation)
           (definition : InvokeDefinition Implementation) : Prop :=
  match invokeConfig_src (invoke_config definition) with
  | src_string s => invoke_src definition = s
  | src_implementation _ =>
      invoke_src definition = invoke_id definition /\
      service_found table (invoke_src definition) = true
  end.

(** ** Notions used to state the properties of [next] *)



Section NextNotions.

Context {TContext TEvent : Type}.
Variable getCandidates : StateNode -> string -> list TransitionDefinition.t.
Variable evaluateGuard :
  StateNode -> Guard -> TContext -> SCXML_Event TEvent -> State TContext -> GuardCall.
Variable isStateId : string -> bool.
Variable matches_state_id : StateNode -> State TContext -> string -> outcome bool.
Variable matches_relative : StateNode -> State TContext -> StateValue -> outcome bool.

(** What the "in" condition of a candidate evaluates to: [true] when the
    candidate declares none (the property is [undefined] or the empty
    string); else the membership test by state id for a string that is a
    state id, and the relative test for anything else. *)
Definition in_condition (this : StateNode) (state : State TContext)
           (candidate : TransitionDefinition.t) : outcome bool :=
  match TransitionDefinition.stateIn candidate with
  | undefined => Returns true
  | str EmptyString => Returns true
  | str (String a s) =>
      if isStateId (String a s) then matches_state_id this state (String a s)
      else matches_relative this state (str (String a s))
  | obj entries => matches_relative this state (obj entries)
  end.

(** What the guard of a candidate evaluates to: [true] when absent. *)
Definition guard_outcome (this : StateNode) (state : State TContext)
           (_event : SCXML_Event TEvent) (candidate : TransitionDefinition.t)
  : GuardCall :=
  match TransitionDefinition.cond candidate with
  | None => guard_returns true
  | Some g => evaluateGuard this g (context state) _event state
  end.

(** Both the "in" condition and the guard of the candidate hold. *)
Definition passes (this : StateNode) (state : State TContext)
           (_event : SCXML_Event TEvent) (candidate : TransitionDefinition.t) : Prop :=
  in_condition this state candidate = Returns true /\
  guard_outcome this state _event candidate = guard_returns true.

(** Both evaluate without throwing and at least one of them is false. *)
Definition rejected (this : StateNode) (state : State TContext)
           (_event : SCXML_Event TEvent) (candidate : TransitionDefinition.t) : Prop :=
  exists isIn passed,
    in_condition this state candidate = Returns isIn /\
    guard_outcome this state _event candidate = guard_returns passed /\
    passed && isIn = false.

(** The guards of a run of candidates, in order. *)
Definition guards_of (cands : list TransitionDefinition.t) : list Guard :=
  omap TransitionDefinition.cond cands.

(** The candidates the loop iterates: the cached array, else the fresh one. *)
Definition candidates_for (w : World) (this : StateNode) (eventName : string)
  : list TransitionDefinition.t :=
  match candidates w !! eventName with
  | Some cached => cached
  | None => getCandidates this eventName
  end.

(** The world once the candidates are cached and [gs] were evaluated. *)
Definition world_after (w : World) (this : StateNode) (eventName : string)
           (gs : list Guard) : World :=
  Build_World (<[eventName := candidates_for w this eventName]> (candidates w))
              (guard_calls w ++ gs).

End NextNotions.

Section NextOutcomes.

Context {TContext TEvent : Type}.
Variable evaluateGuard :
  StateNode -> Guard -> TContext -> SCXML_Event TEvent -> State TContext -> GuardCall.
Variable isStateId : string -> bool.
Variable matches_state_id : StateNode -> State TContext -> string -> outcome bool.
Variable matches_relative : StateNode -> State TContext -> StateValue -> outcome bool.

Local Abbreviation in_condition' :=
  (in_condition isStateId matches_state_id matches_relative).
Local Abbreviation passes' :=
  (passes evaluateGuard isStateId matches_state_id matches_relative).
Local Abbreviation rejected' :=
  (rejected evaluateGuard isStateId matches_state_id matches_relative).

(** How a run of the loop over [cands] ends. *)
Inductive loop_end (this : StateNode) (state : State TContext)
          (_event : SCXML_Event TEvent) (cands : list TransitionDefinition.t)
  : outcome (option TransitionDefinition.t) -> list Guard -> Prop :=
| loop_unhandled :
    Forall (rejected' this state _event) cands ->
    loop_end this state _event cands (Returns None) (guards_of cands)
| loop_selected pre c post :
    cands = pre ++ c :: post ->
    Forall (rejected' this state _event) pre ->
    passes' this state _event c ->
    loop_end this state _event cands (Returns (Some c)) (guards_of (pre ++ [c]))
| loop_in_condition_throws pre c post message :
    cands = pre ++ c :: post ->
    Forall (rejected' this state _event) pre ->
    in_condition' this state c = Throws message ->
    loop_end this state _event cands (Throws message) (guards_of pre)
| loop_guard_throws pre c post isIn g err :
    cands = pre ++ c :: post ->
    Forall (rejected' this state _event) pre ->
    in_condition' this state c = Returns isIn ->
    TransitionDefinition.cond c = Some g ->
    evaluateGuard this g (context state) _event state = guard_throws err ->
    loop_end this state _event cands
             (Throws (guard_catch_message g (name _event) this err))
             (guards_of pre ++ [g]).

End NextOutcomes.

(** ** Notions used to state the properties of construction *)

(** The machine key and the path the constructor computes. *)
Definition key_of (config : StateNodeConfig) (options : StateNodeOptions) : string :=
  or_string (config_key config) (_key options).

Definition machine_key_of (config : StateNodeConfig) (options : StateNodeOptions)
  : string :=
  match _parent options with
  | Some p => machine_key p
  | None => key_of config options
  end.

Definition path_of (config : StateNodeConfig) (options : StateNodeOptions)
  : list string :=
  match _parent options with
  | Some p => parent_path p ++ [key_of config options]
  | None => []
  end.


(** The nodes a list of children contributes: each child, then the nodes
    below it. *)
Definition children_nodes (children : list (string * StateNode)) : list StateNode :=
  concat (map (fun entry => snd entry :: descendants (snd entry)) children).





(** * The helpers of [./stateUtils] as the specification describes them *)

(** Modelled from the spec: [getCandidates] of [./stateUtils], which is not
    part of this file: "the ordered subsequence of [N]'s transitions whose
    matcher equals [E]'s type". *)
Definition getCandidates_spec (formatTransitions : StateNode -> list TransitionDefinition.t)
           (stateNode : StateNode) (eventName : string)
  : list TransitionDefinition.t :=
  filter (fun transition => TransitionDefinition.eventType transition = eventName)
         (formatTransitions stateNode).

(** Modelled from the spec: [getRelativeStateNodes] of [./stateUtils],
    which is not part of this file: "atomic/final nodes expand to
    themselves; compound nodes expand to their initial child; parallel
    nodes expand to all children"; a history node expands to its recorded
    configuration.  The fallback target of a history node without a record
    and the already-active child of a running branch are not described
    precisely enough to be modelled and expand to nothing here. *)
Fixpoint getRelativeStateNodes_spec {TContext : Type} (stateNode : StateNode)
         (state : State TContext) : list StateNode :=
  let expansions :=
    map (fun entry => (fst entry, getRelativeStateNodes_spec (snd entry) state))
        (states stateNode) in
  match type stateNode with
  | atomic | final => [stateNode]
  | compound =>
      match initial stateNode with
      | Some k => default [] (get_state expansions k)
      | None => []
      end
  | parallel => concat (map snd expansions)
  | history_type => default [] (historyValue state !! id stateNode)
  end.

(** The nodes from a node down to the node reached along a list of keys,
    the node itself first; none when a key names no child. *)
Fixpoint path_down (stateNode : StateNode) (keys : list string)
  : option (list StateNode) :=
  match keys with
  | [] => Some [stateNode]
  | k :: rest =>
      match get_state (states stateNode) k with
      | Some child => cons stateNode <$> path_down child rest
      | None => None
      end
  end.

(** Modelled from the spec: [nodesFromChild] of [./stateUtils], which is
    not part of this file: "the nodes on the path from [N] down to each
    resolved leaf target".  For a target below [N] these are [N] and the
    nodes down to the target; a target that is not below [N] has no such
    path and gives no node. *)
Definition nodesFromChild_spec (stateNode childStateNode : StateNode) : list StateNode :=
  let above := path stateNode in
  let below := path childStateNode in
  if bool_decide (take (length above) below = above)
  then default [] (path_down stateNode (drop (length above) below))
  else [].

(** * A worked machine

    The machine of the specification's example: a compound root with the
    atomic children [idle] and [active]. *)
Module Example.

Definition STATE_DELIMITER : string := ".".

Definition MachineNode_delimiter (config : StateNodeConfig) : string :=
  or_string (config_delimiter config) STATE_DELIMITER.

Definition atomic_config : StateNodeConfig :=
  Build_StateNodeConfig None None None None None None None.

Definition machine_config : StateNodeConfig :=
  Build_StateNodeConfig None None None None (Some "idle")
    (Some [("idle", atomic_config); ("active", atomic_config)]) None.

Definition machine : StateNode :=
  new_StateNode STATE_DELIMITER MachineNode_delimiter machine_config
                (Build_StateNodeOptions "machine" None).

Definition idle : StateNode :=
  Build_StateNode "idle" "machine.idle" atomic ["idle"] None [] no_history ∅.

Definition active : StateNode :=
  Build_StateNode "active" "machine.active" atomic ["active"] None [] no_history ∅.

(** [idle.on = { START: { target: "active" } }]. *)
Definition START : TransitionDefinition.t :=
  TransitionDefinition.Build "START" None undefined (Some [active]) [] false.

Definition formatTransitions (stateNode : StateNode) : list TransitionDefinition.t :=
  if String.eqb (id stateNode) "machine.idle" then [START] else [].

Definition stateAtIdle : State unit :=
  Build_State (str "idle") tt ∅.

Definition no_guard (this : StateNode) (g : Guard) (c : unit)
           (e : SCXML_Event unit) (s : State unit) : GuardCall :=
  guard_throws (thrown_Error "no guard is declared").

Definition no_in_condition_id (this : StateNode) (s : State unit) (i : string)
  : outcome bool := Throws "no in-condition is declared".

Definition no_in_condition (this : StateNode) (s : State unit) (v : StateValue)
  : outcome bool := Throws "no in-condition is declared".

Definition fresh : World := Build_World ∅ [].


End Example.

(** * Instances

    The node [idle] of the worked machine with guarded handlers: on [GO],
    a transition to [active] guarded by [g1] (false) and one to [idle]
    guarded by [g2] (true); on [BOOM], a guard that throws, followed by an
    unguarded transition; on [IN], an unsatisfied "in" condition with the
    throwing guard; on [PING], a targetless internal transition with one
    action. *)
Module Sample.
Import Example.

Definition g1 : Guard := Build_Guard (Some "g1") "xstate.guard".
Definition g2 : Guard := Build_Guard (Some "g2") "xstate.guard".
Definition boom : Guard := Build_Guard None "boom".
Definition log : ActionObject := Build_ActionObject "log".

Definition GO1 : TransitionDefinition.t :=
  TransitionDefinition.Build "GO" (Some g1) undefined (Some [active]) [] false.
Definition GO2 : TransitionDefinition.t :=
  TransitionDefinition.Build "GO" (Some g2) undefined (Some [idle]) [] false.
Definition BOOM1 : TransitionDefinition.t :=
  TransitionDefinition.Build "BOOM" (Some boom) undefined (Some [active]) [] false.
Definition BOOM2 : TransitionDefinition.t :=
  TransitionDefinition.Build "BOOM" None undefined (Some [active]) [] false.
Definition IN1 : TransitionDefinition.t :=
  TransitionDefinition.Build "IN" (Some boom) (str "#machine.active")
                             (Some [active]) [] false.
Definition PING : TransitionDefinition.t :=
  TransitionDefinition.Build "PING" None undefined None [log] true.

Definition getCandidates (stateNode : StateNode) (eventName : string)
  : list TransitionDefinition.t :=
  getCandidates_spec (fun _ => [GO1; GO2; BOOM1; BOOM2; IN1; PING])
                     stateNode eventName.

Definition evaluateGuard (this : StateNode) (g : Guard) (c : unit)
           (e : SCXML_Event unit) (s : State unit) : GuardCall :=
  if String.eqb (guard_type g) "boom" then guard_throws (thrown_Error "kaboom")
  else guard_returns (bool_decide (guard_name g = Some "g2")).

Definition isStateId (s : string) : bool := String.prefix "#" s.

(** The snapshot is at [idle]: no state id other than that of [idle]
    matches. *)
Definition matches_state_id (this : StateNode) (s : State unit) (i : string)
  : outcome bool := Returns (String.eqb i "#machine.idle").

Definition matches_relative (this : StateNode) (s : State unit) (v : StateValue)
  : outcome bool := Returns false.

Definition next (this : StateNode) (state : State unit) (_event : SCXML_Event unit)
  : Eff (option (StateTransition.t unit)) :=
  next getCandidates evaluateGuard isStateId matches_state_id matches_relative
       getRelativeStateNodes_spec nodesFromChild_spec this state _event.

Definition event (eventName : string) : SCXML_Event unit :=
  Build_SCXML_Event eventName tt.

(** A history node of the machine and a snapshot that recorded a
    configuration under its id. *)
Definition hist : StateNode :=
  Build_StateNode "hist" "machine.hist" history_type ["hist"] None [] shallow ∅.

Definition stateWithHistory : State unit :=
  Build_State (str "idle") tt {[ "machine.hist" := [idle; active] ]}.

End Sample.

(** A machine whose root configures the delimiter ["/"], with a child [a]
    and, below it, a child [b] that configures ["#"]. *)
Module Delimited.

Definition b_config : StateNodeConfig :=
  Build_StateNodeConfig None None (Some "#") None None None None.

Definition a_config : StateNodeConfig :=
  Build_StateNodeConfig None None None None (Some "b") (Some [("b", b_config)]) None.

Definition machine_config : StateNodeConfig :=
  Build_StateNodeConfig None None (Some "/") None (Some "a")
                        (Some [("a", a_config)]) None.

Definition machine (MachineNode_delimiter : StateNodeConfig -> string) : StateNode :=
  new_StateNode "." MachineNode_delimiter machine_config
                (Build_StateNodeOptions "m" None).

End Delimited.

(** A machine with two children configured with the same explicit id. *)
Module Twins.

Definition twin_config : StateNodeConfig :=
  Build_StateNodeConfig None (Some "x") None None None None None.

Definition machine_config : StateNodeConfig :=
  Build_StateNodeConfig None None None None (Some "a")
                        (Some [("a", twin_config); ("b", twin_config)]) None.

Definition machine : StateNode :=
  new_StateNode "." Example.MachineNode_delimiter machine_config
                (Build_StateNodeOptions "m" None).

End Twins.

(** Nodes with a broken initial key: a compound node that declares none,
    and one whose key names no child. *)
Module Malformed.

Definition no_initial_config : StateNodeConfig :=
  Build_StateNodeConfig None None None None None
                        (Some [("a", Example.atomic_config)]) None.

Definition dangling_config : StateNodeConfig :=
  Build_StateNodeConfig None None None None (Some "nowhere")
                        (Some [("a", Example.atomic_config)]) None.

Definition no_initial : StateNode :=
  new_StateNode "." Example.MachineNode_delimiter no_initial_config
                (Build_StateNodeOptions "m" None).

Definition dangling : StateNode :=
  new_StateNode "." Example.MachineNode_delimiter dangling_config
                (Build_StateNodeOptions "m" None).

(** A compound node whose initial key names no child but a member every
    object inherits. *)
Definition inherited_key_config : StateNodeConfig :=
  Build_StateNodeConfig None None None None (Some "toString")
                        (Some [("a", Example.atomic_config)]) None.

Definition inherited_key : StateNode :=
  new_StateNode "." Example.MachineNode_delimiter inherited_key_config
                (Build_StateNodeOptions "m" None).

End Malformed.

(** The node [idle] with a handler on [DENY] whose guard is false, and a
    handler on [LOST] whose "in" condition names a state id that cannot be
    resolved: evaluating it throws. *)
Module Strict.

Definition DENY : TransitionDefinition.t :=
  TransitionDefinition.Build "DENY" (Some Sample.g1) undefined
                             (Some [Example.active]) [] false.

Definition LOST : TransitionDefinition.t :=
  TransitionDefinition.Build "LOST" (Some Sample.g2) (str "#machine.nowhere")
                             (Some [Example.active]) [] false.

Definition getCandidates (stateNode : StateNode) (eventName : string)
  : list TransitionDefinition.t :=
  getCandidates_spec (fun _ => [DENY; LOST]) stateNode eventName.

Definition matches_state_id (this : StateNode) (s : State unit) (i : string)
  : outcome bool :=
  if String.eqb i "#machine.idle" then Returns true
  else Throws ("Child state '" +:+ i +:+ "' does not exist").

Definition next (this : StateNode) (state : State unit) (_event : SCXML_Event unit)
  : Eff (option (StateTransition.t unit)) :=
  next getCandidates Sample.evaluateGuard Sample.isStateId matches_state_id
       Sample.matches_relative getRelativeStateNodes_spec nodesFromChild_spec
       this state _event.

End Strict.

(** The node [idle] invoking a named service, an anonymous implementation
    and an anonymous implementation with an explicit id; implementations
    are stood for by numbers, and an invocation is already in config form. *)
Module Services.

Definition toInvokeConfig (invocable : InvokeConfig nat) (id_ : string)
  : InvokeConfig nat := invocable.

Definition config_invoke : list (InvokeConfig nat) :=
  [ Build_InvokeConfig None None (src_string "fetchUser");
    Build_InvokeConfig None None (src_implementation 7);
    Build_InvokeConfig None (Some "timer") (src_implementation 9) ].

Definition before : InvokeWorld nat :=
  Build_InvokeWorld None {[ "fetchUser" := 1 ]}.

Definition invoke (w : InvokeWorld nat)
  : list (InvokeDefinition nat) * InvokeWorld nat :=
  invoke toInvokeConfig "xstate.invoke" Example.idle config_invoke w.

(** Invocations whose anonymous implementations collide: two with the
    same explicit id, one whose id is already taken in the table, and one
    whose id is the name of an inherited member; the last one declares a
    [type] of its own. *)
Definition colliding_config_invoke : list (InvokeConfig nat) :=
  [ Build_InvokeConfig None (Some "timer") (src_implementation 9);
    Build_InvokeConfig None (Some "timer") (src_implementation 10);
    Build_InvokeConfig None (Some "fetchUser") (src_implementation 11);
    Build_InvokeConfig (Some "custom") (Some "toString") (src_implementation 12) ].

End Services.

(** The node [idle] with four handlers on [STEP]: the first has a true
    guard and an unsatisfied "in" condition, the second an unguarded
    relative "in" condition that does not hold, the third a satisfied "in"
    condition and a false guard, the fourth a satisfied "in" condition and
    a true guard; an unconditional fifth one follows. *)
Module Pinned.

Definition open1 : Guard := Build_Guard (Some "open1") "xstate.guard".
Definition shut : Guard := Build_Guard (Some "shut") "xstate.guard".
Definition open2 : Guard := Build_Guard (Some "open2") "xstate.guard".

Definition STEP1 : TransitionDefinition.t :=
  TransitionDefinition.Build "STEP" (Some open1) (str "#machine.active")
                             (Some [Example.active]) [] false.
Definition STEP2 : TransitionDefinition.t :=
  TransitionDefinition.Build "STEP" None (obj [("active", str "busy")])
                             (Some [Example.active]) [] false.
Definition STEP3 : TransitionDefinition.t :=
  TransitionDefinition.Build "STEP" (Some shut) (str "#machine.idle")
                             (Some [Example.active]) [] false.
Definition STEP4 : TransitionDefinition.t :=
  TransitionDefinition.Build "STEP" (Some open2) (str "#machine.idle")
                             (Some [Example.idle]) [Sample.log] false.
Definition STEP5 : TransitionDefinition.t :=
  TransitionDefinition.Build "STEP" (Some Sample.boom) undefined
                             (Some [Example.active]) [] false.

Definition getCandidates (stateNode : StateNode) (eventName : string)
  : list TransitionDefinition.t :=
  getCandidates_spec (fun _ => [STEP1; STEP2; STEP3; STEP4; STEP5])
                     stateNode eventName.

Definition evaluateGuard (this : StateNode) (g : Guard) (c : unit)
           (e : SCXML_Event unit) (s : State unit) : GuardCall :=
  if String.eqb (guard_type g) "boom" then guard_throws (thrown_Error "kaboom")
  else guard_returns (negb (bool_decide (guard_name g = Some "shut"))).

Definition next (this : StateNode) (state : State unit) (_event : SCXML_Event unit)
  : Eff (option (StateTransition.t unit)) :=
  next getCandidates evaluateGuard Sample.isStateId Sample.matches_state_id
       Sample.matches_relative getRelativeStateNodes_spec nodesFromChild_spec
       this state _event.

End Pinned.

(** The node [idle] with a handler on [CHECK] whose guard [isReady] throws
    [null], one on [ASK] whose guard throws a string, and a handler on the
    event named [toString]. *)
Module Nullish.

Definition isReady : Guard := Build_Guard (Some "isReady") "xstate.guard".
Definition isKnown : Guard := Build_Guard (Some "isKnown") "xstate.guard".

Definition CHECK : TransitionDefinition.t :=
  TransitionDefinition.Build "CHECK" (Some isReady) undefined
                             (Some [Example.active]) [] false.
Definition ASK : TransitionDefinition.t :=
  TransitionDefinition.Build "ASK" (Some isKnown) undefined
                             (Some [Example.active]) [] false.
Definition TO_STRING : TransitionDefinition.t :=
  TransitionDefinition.Build "toString" None undefined
                             (Some [Example.active]) [] false.

Definition formatTransitions (stateNode : StateNode) : list TransitionDefinition.t :=
  [CHECK; ASK; TO_STRING].

Definition getCandidates (stateNode : StateNode) (eventName : string)
  : list TransitionDefinition.t :=
  getCandidates_spec formatTransitions stateNode eventName.

Definition evaluateGuard (this : StateNode) (g : Guard) (c : unit)
           (e : SCXML_Event unit) (s : State unit) : GuardCall :=
  if bool_decide (guard_name g = Some "isReady") then guard_throws thrown_nullish
  else guard_throws thrown_without_message.

Definition next (this : StateNode) (state : State unit) (_event : SCXML_Event unit)
  : Eff (option (StateTransition.t unit)) :=
  next getCandidates evaluateGuard Sample.isStateId Sample.matches_state_id
       Sample.matches_relative getRelativeStateNodes_spec nodesFromChild_spec
       this state _event.

End Nullish.

(** The node [idle] with two handlers on [GO], one on [PING], and an inert
    one on [QUIET] (no target, no action, marked internal). *)
Module Surface.

Definition QUIET : TransitionDefinition.t :=
  TransitionDefinition.Build "QUIET" None undefined None [] true.

Definition formatTransitions (stateNode : StateNode) : list TransitionDefinition.t :=
  [Sample.GO1; Sample.PING; QUIET; Sample.GO2].

(** [idle.on] for these handlers. *)
Definition on_idle : gmap string (list TransitionDefinition.t) :=
  {[ "GO" := [Sample.GO1; Sample.GO2]; "PING" := [Sample.PING]; "QUIET" := [QUIET] ]}.

End Surface.

(** * Properties of the resolver *)

Section NextFacts.

Context {TContext TEvent : Type}.
Variable getCandidates : StateNode -> string -> list TransitionDefinition.t.
Variable evaluateGuard :
  StateNode -> Guard -> TContext -> SCXML_Event TEvent -> State TContext -> GuardCall.
Variable isStateId : string -> bool.
Variable matches_state_id : StateNode -> State TContext -> string -> outcome bool.
Variable matches_relative : StateNode -> State TContext -> StateValue -> outcome bool.
Variable getRelativeStateNodes : StateNode -> State TContext -> list StateNode.
Variable nodesFromChild : StateNode -> StateNode -> list StateNode.

Local Abbreviation isInState' := (isInState isStateId matches_state_id matches_relative).
Local Abbreviation in_condition' :=
  (in_condition isStateId matches_state_id matches_relative).
Local Abbreviation select' :=
  (select evaluateGuard isStateId matches_state_id matches_relative).
Local Abbreviation resolve' := (resolve getRelativeStateNodes nodesFromChild).
Local Abbreviation next' :=
  (next getCandidates evaluateGuard isStateId matches_state_id matches_relative
        getRelativeStateNodes nodesFromChild).
Local Abbreviation guard_outcome' := (guard_outcome evaluateGuard).
Local Abbreviation passes' :=
  (passes evaluateGuard isStateId matches_state_id matches_relative).
Local Abbreviation rejected' :=
  (rejected evaluateGuard isStateId matches_state_id matches_relative).
Local Abbreviation candidates_for' := (candidates_for getCandidates).
Local Abbreviation world_after' := (world_after getCandidates).
Local Abbreviation loop_end' :=
  (loop_end evaluateGuard isStateId matches_state_id matches_relative).

Lemma guards_of_app (l1 l2 : list TransitionDefinition.t) :
  guards_of (l1 ++ l2) = guards_of l1 ++ guards_of l2.
Proof. unfold guards_of. apply omap_app. Qed.

(** The code of lines 382-396 computes the "in" condition. *)
Lemma isInState_in_condition (this : StateNode) (state : State TContext)
      (c : TransitionDefinition.t) :
  isInState' this state c = in_condition' this state c.
Proof.
  unfold isInState, in_condition.
  by destruct (TransitionDefinition.stateIn c) as [|[|a s]|entries].
Qed.

(** Reading the cache at a name that holds an array, or at a name that is
    not inherited. *)
Lemma cached_candidates_cached (this : StateNode) (eventName : string) (w : World) :
  is_Some (candidates w !! eventName) ->
  cached_candidates getCandidates this eventName w
  = (Returns (candidates_for' w this eventName), world_after' w this eventName []).
Proof.
  intros [cached Hc].
  unfold cached_candidates, world_after, candidates_for.
  destruct w as [cache calls]. cbn [candidates guard_calls] in *. rewrite Hc.
  rewrite (insert_id cache eventName cached Hc). by rewrite app_nil_r.
Qed.

Lemma cached_candidates_spec (this : StateNode) (eventName : string) (w : World) :
  inherited eventName = false ->
  cached_candidates getCandidates this eventName w
  = (Returns (candidates_for' w this eventName), world_after' w this eventName []).
Proof.
  intros Hown.
  destruct (candidates w !! eventName) as [cached|] eqn:Hc;
    [by apply cached_candidates_cached|].
  unfold cached_candidates, world_after, candidates_for.
  destruct w as [cache calls]. cbn [candidates guard_calls] in *.
  rewrite Hc, Hown. by rewrite app_nil_r.
Qed.

(** Reading it at the name of an inherited member. *)
Lemma cached_candidates_inherited (this : StateNode) (eventName : string) (w : World) :
  candidates w !! eventName = None ->
  inherited eventName = true ->
  cached_candidates getCandidates this eventName w
  = (Throws TypeError_not_iterable, w).
Proof. intros Hc Hin. unfold cached_candidates. by rewrite Hc, Hin. Qed.

(** One iteration on a rejected candidate: the loop goes on, the guard
    (when there is one) has been called once. *)
Lemma select_rejected (this : StateNode) (state : State TContext)
      (_event : SCXML_Event TEvent) (c : TransitionDefinition.t)
      (rest : list TransitionDefinition.t) (w : World) :
  rejected' this state _event c ->
  select' this state _event (c :: rest) w
  = select' this state _event rest
      (Build_World (candidates w) (guard_calls w ++ guards_of [c])).
Proof.
  intros (isIn & passed & Hin & Hg & Hfalse).
  cbn [select]. rewrite isInState_in_condition.
  unfold guards_of, guard_outcome in *. cbn [omap list_omap].
  unfold bind, lift, guardPassed. rewrite Hin.
  destruct (TransitionDefinition.cond c) as [g|]; cbn.
  - unfold call_evaluateGuard. rewrite Hg. by rewrite Hfalse.
  - injection Hg as <-. unfold ret. cbn in Hfalse. rewrite Hfalse.
    destruct w; cbn. by rewrite app_nil_r.
Qed.

Lemma select_rejected_prefix (this : StateNode) (state : State TContext)
      (_event : SCXML_Event TEvent) (pre rest : list TransitionDefinition.t) :
  Forall (rejected' this state _event) pre ->
  forall w : World,
    select' this state _event (pre ++ rest) w
    = select' this state _event rest
        (Build_World (candidates w) (guard_calls w ++ guards_of pre)).
Proof.
  induction 1 as [|c pre Hc _ IH]; intros w.
  - destruct w; simpl. by rewrite app_nil_r.
  - change ((c :: pre) ++ rest) with (c :: (pre ++ rest)).
    rewrite select_rejected by done. rewrite IH. simpl.
    do 2 f_equal. rewrite <- app_assoc. f_equal.
    by destruct (TransitionDefinition.cond c).
Qed.

Lemma select_passes (this : StateNode) (state : State TContext)
      (_event : SCXML_Event TEvent) (c : TransitionDefinition.t)
      (rest : list TransitionDefinition.t) (w : World) :
  passes' this state _event c ->
  select' this state _event (c :: rest) w
  = (Returns (Some c),
     Build_World (candidates w) (guard_calls w ++ guards_of [c])).
Proof.
  intros [Hin Hg].
  cbn [select]. rewrite isInState_in_condition.
  unfold guards_of, guard_outcome in *. cbn [omap list_omap].
  unfold bind, lift, guardPassed. rewrite Hin.
  destruct (TransitionDefinition.cond c) as [g|]; cbn.
  - unfold call_evaluateGuard. by rewrite Hg.
  - unfold ret. destruct w; cbn. by rewrite app_nil_r.
Qed.

Lemma select_guard_throws (this : StateNode) (state : State TContext)
      (_event : SCXML_Event TEvent) (c : TransitionDefinition.t)
      (rest : list TransitionDefinition.t) (w : World)
      (isIn : bool) (g : Guard) (err : Thrown) :
  in_condition' this state c = Returns isIn ->
  TransitionDefinition.cond c = Some g ->
  evaluateGuard this g (context state) _event state = guard_throws err ->
  select' this state _event (c :: rest) w
  = (Throws (guard_catch_message g (name _event) this err),
     Build_World (candidates w) (guard_calls w ++ [g])).
Proof.
  intros Hin Hc Hg. cbn [select]. rewrite isInState_in_condition.
  unfold bind, lift, guardPassed. rewrite Hin, Hc.
  unfold call_evaluateGuard. by rewrite Hg.
Qed.

Lemma select_in_condition_throws (this : StateNode) (state : State TContext)
      (_event : SCXML_Event TEvent) (c : TransitionDefinition.t)
      (rest : list TransitionDefinition.t) (w : World) (message : string) :
  in_condition' this state c = Throws message ->
  select' this state _event (c :: rest) w = (Throws message, w).
Proof.
  intros Hin. cbn [select]. rewrite isInState_in_condition.
  unfold bind, lift. by rewrite Hin.
Qed.

Lemma select_all_rejected (this : StateNode) (state : State TContext)
      (_event : SCXML_Event TEvent) (cands : list TransitionDefinition.t) (w : World) :
  Forall (rejected' this state _event) cands ->
  select' this state _event cands w
  = (Returns None, Build_World (candidates w) (guard_calls w ++ guards_of cands)).
Proof.
  intros H. rewrite <- (app_nil_r cands) at 1.
  rewrite select_rejected_prefix by done. done.
Qed.

(** One iteration on a candidate whose "in" condition is false and that
    has a guard: the guard is called all the same. *)
Lemma select_in_false (this : StateNode) (state : State TContext)
      (_event : SCXML_Event TEvent) (c : TransitionDefinition.t)
      (rest : list TransitionDefinition.t) (w : World) (g : Guard) :
  in_condition' this state c = Returns false ->
  TransitionDefinition.cond c = Some g ->
  select' this state _event (c :: rest) w
  = match evaluateGuard this g (context state) _event state with
    | guard_returns _ =>
        select' this state _event rest
                (Build_World (candidates w) (guard_calls w ++ [g]))
    | guard_throws err =>
        (Throws (guard_catch_message g (name _event) this err),
         Build_World (candidates w) (guard_calls w ++ [g]))
    end.
Proof.
  intros Hin Hc. cbn [select]. rewrite isInState_in_condition.
  unfold bind, lift, guardPassed. rewrite Hin, Hc.
  unfold call_evaluateGuard.
  destruct (evaluateGuard this g (context state) _event state) as [passed|err];
    [|done].
  by rewrite andb_false_r.
Qed.

(** The loop only ever appends to the record of guard calls and leaves
    the cache alone. *)
Lemma select_appends (this : StateNode) (state : State TContext)
      (_event : SCXML_Event TEvent) (cands : list TransitionDefinition.t) :
  forall w : World,
    candidates (snd (select' this state _event cands w)) = candidates w /\
    exists more,
      guard_calls (snd (select' this state _event cands w)) = guard_calls w ++ more.
Proof.
  induction cands as [|c rest IH]; intros w; cbn [select].
  - split; [done|]. exists []. by rewrite app_nil_r.
  - unfold bind, lift, guardPassed.
    destruct (isInState' this state c) as [isIn|m]; cbn;
      [|split; [done|]; exists []; by rewrite app_nil_r].
    destruct (TransitionDefinition.cond c) as [g|]; cbn.
    + unfold call_evaluateGuard.
      destruct (evaluateGuard this g (context state) _event state) as [passed|err];
        cbn; [|split; [done|]; by exists [g]].
      destruct (passed && isIn); cbn; [split; [done|]; by exists [g]|].
      destruct (IH (Build_World (candidates w) (guard_calls w ++ [g])))
        as [Hc [more Hmore]].
      split; [done|]. exists (g :: more). rewrite Hmore. cbn.
      by rewrite <- app_assoc.
    + destruct isIn; cbn; [split; [done|]; exists []; by rewrite app_nil_r|].
      apply IH.
Qed.

(** The outcome of the loop does not depend on the world it starts in. *)
Lemma select_outcome_any_world (this : StateNode) (state : State TContext)
      (_event : SCXML_Event TEvent) (cands : list TransitionDefinition.t) :
  forall w1 w2 : World,
    fst (select' this state _event cands w1) = fst (select' this state _event cands w2).
Proof.
  induction cands as [|c cands IH]; intros w1 w2; [done|].
  cbn [select]. unfold bind, lift, guardPassed.
  destruct (isInState' this state c) as [isIn|m]; [|done].
  destruct (TransitionDefinition.cond c) as [g|]; cbn.
  - unfold call_evaluateGuard.
    destruct (evaluateGuard this g (context state) _event state) as [passed|err];
      [|done].
    destruct (passed && isIn); [done|]. apply IH.
  - destruct isIn; [done|]. apply IH.
Qed.

Lemma loop_end_cons (this : StateNode) (state : State TContext)
      (_event : SCXML_Event TEvent) (c : TransitionDefinition.t)
      (cands : list TransitionDefinition.t)
      (o : outcome (option TransitionDefinition.t)) (gs : list Guard) :
  rejected' this state _event c ->
  loop_end' this state _event cands o gs ->
  loop_end' this state _event (c :: cands) o (guards_of [c] ++ gs).
Proof.
  intros Hc Hend.
  destruct Hend as [Hall|pre c0 post -> Hpre Hpass|pre c0 post m -> Hpre Hin
                    |pre c0 post isIn g e -> Hpre Hin Hcond Hthrow].
  - rewrite <- guards_of_app. by apply loop_unhandled, Forall_cons.
  - rewrite <- guards_of_app.
    by apply loop_selected with (pre := c :: pre) (post := post); [|apply Forall_cons|].
  - rewrite <- guards_of_app.
    by apply loop_in_condition_throws with (pre := c :: pre) (c := c0) (post := post);
      [|apply Forall_cons|].
  - rewrite app_assoc, <- guards_of_app.
    by apply loop_guard_throws with (pre := c :: pre) (c := c0) (post := post) (isIn := isIn);
      [|apply Forall_cons| | |].
Qed.

(** Every run of the loop ends in one of the four ways, with the guards of
    the candidates it went through recorded in order. *)
Lemma select_loop_end (this : StateNode) (state : State TContext)
      (_event : SCXML_Event TEvent) (cands : list TransitionDefinition.t) :
  forall w : World,
  exists o gs,
    select' this state _event cands w
    = (o, Build_World (candidates w) (guard_calls w ++ gs)) /\
    loop_end' this state _event cands o gs.
Proof.
  induction cands as [|c cands IH]; intros w.
  - exists (Returns None), []. split.
    + destruct w; cbn. by rewrite app_nil_r.
    + apply loop_unhandled with (cands := []). constructor.
  - destruct (in_condition' this state c) as [isIn|m] eqn:Hin.
    2:{ exists (Throws m), []. split.
        - rewrite (select_in_condition_throws _ _ _ _ _ _ m Hin).
          destruct w; cbn. by rewrite app_nil_r.
        - by apply loop_in_condition_throws with (pre := []) (c := c) (post := cands). }
    destruct (guard_outcome evaluateGuard this state _event c) as [passed|e] eqn:Hg.
    2:{ unfold guard_outcome in Hg.
        destruct (TransitionDefinition.cond c) as [g|] eqn:Hcond; [|done].
        exists (Throws (guard_catch_message g (name _event) this e)), [g]. split.
        - by apply select_guard_throws with (isIn := isIn).
        - by apply loop_guard_throws with (pre := []) (c := c) (post := cands) (isIn := isIn). }
    destruct (passed && isIn) eqn:Hboth.
    + apply andb_true_iff in Hboth as [-> ->].
      exists (Returns (Some c)), (guards_of [c]). split.
      * by apply select_passes.
      * by apply loop_selected with (pre := []) (post := cands).
    + assert (Hrej : rejected' this state _event c) by (by exists isIn, passed).
      destruct (IH (Build_World (candidates w) (guard_calls w ++ guards_of [c])))
        as (o & gs & Hsel & Hend).
      exists o, (guards_of [c] ++ gs). split.
      * rewrite select_rejected by done. rewrite Hsel. cbn. by rewrite app_assoc.
      * by apply loop_end_cons.
Qed.

(** [next] once the candidates were read: the loop run on them. *)
Lemma next_as_select
      (getCandidates0 : StateNode -> string -> list TransitionDefinition.t)
      (this : StateNode) (state : State TContext)
      (_event : SCXML_Event TEvent) (w : World) :
  recorded_history this state = None ->
  is_Some (candidates w !! name _event) \/ inherited (name _event) = false ->
  next getCandidates0 evaluateGuard isStateId matches_state_id matches_relative
       getRelativeStateNodes nodesFromChild this state _event w
  = (match fst (select' this state _event
                        (candidates_for getCandidates0 w this (name _event))
                        (world_after getCandidates0 w this (name _event) [])) with
     | Returns (Some c) => Returns (Some (resolve' this state c))
     | Returns None => Returns None
     | Throws message => Throws message
     end,
     snd (select' this state _event
                  (candidates_for getCandidates0 w this (name _event))
                  (world_after getCandidates0 w this (name _event) []))).
Proof.
  intros Hh Hread. unfold next. rewrite Hh. unfold bind at 1.
  assert (cached_candidates getCandidates0 this (name _event) w
          = (Returns (candidates_for getCandidates0 w this (name _event)),
             world_after getCandidates0 w this (name _event) [])) as ->.
  { destruct Hread as [Hc|Hown].
    - destruct Hc as [cached Hc].
      unfold cached_candidates, world_after, candidates_for.
      destruct w as [cache calls]. cbn [candidates guard_calls] in *. rewrite Hc.
      rewrite (insert_id cache (name _event) cached Hc). by rewrite app_nil_r.
    - unfold cached_candidates, world_after, candidates_for.
      destruct w as [cache calls]. cbn [candidates guard_calls] in *.
      destruct (cache !! name _event) as [cached|] eqn:Hc.
      + rewrite (insert_id cache (name _event) cached Hc). by rewrite app_nil_r.
      + rewrite Hown. by rewrite app_nil_r. }
  unfold bind. by destruct (select' this state _event _ _) as [[[c|]|m] w1].
Qed.

(** [next] at the name of an inherited member that the cache does not
    hold: the iteration raises before any candidate is looked at. *)
Lemma next_inherited (this : StateNode) (state : State TContext)
      (_event : SCXML_Event TEvent) (w : World) :
  recorded_history this state = None ->
  candidates w !! name _event = None ->
  inherited (name _event) = true ->
  next' this state _event w = (Throws TypeError_not_iterable, w).
Proof.
  intros Hh Hc Hin. unfold next. rewrite Hh. unfold bind at 1.
  by rewrite cached_candidates_inherited.
Qed.

(** When the candidates can be read, [next] ends as the loop does. *)
Lemma next_loop_end_read (this : StateNode) (state : State TContext)
      (_event : SCXML_Event TEvent) (w : World) :
  recorded_history this state = None ->
  is_Some (candidates w !! name _event) \/ inherited (name _event) = false ->
  exists o gs,
    loop_end' this state _event (candidates_for' w this (name _event)) o gs /\
    next' this state _event w
    = (match o with
       | Returns (Some c) => Returns (Some (resolve' this state c))
       | Returns None => Returns None
       | Throws message => Throws message
       end,
       world_after' w this (name _event) gs).
Proof.
  intros Hh Hread.
  destruct (select_loop_end this state _event (candidates_for' w this (name _event))
              (world_after' w this (name _event) []))
    as (o & gs & Hsel & Hend).
  exists o, gs. split; [done|].
  rewrite (next_as_select getCandidates) by done. rewrite Hsel.
  unfold world_after. cbn. by rewrite app_nil_r.
Qed.

Lemma next_loop_end (this : StateNode) (state : State TContext)
      (_event : SCXML_Event TEvent) (w : World) :
  recorded_history this state = None ->
  inherited (name _event) = false ->
  exists o gs,
    loop_end' this state _event (candidates_for' w this (name _event)) o gs /\
    next' this state _event w
    = (match o with
       | Returns (Some c) => Returns (Some (resolve' this state c))
       | Returns None => Returns None
       | Throws message => Throws message
       end,
       world_after' w this (name _event) gs).
Proof. intros Hh Hown. apply next_loop_end_read; [done|by right]. Qed.

(** Either the candidates can be read, or [next] raises on reading them. *)
Lemma next_read_or_raise (this : StateNode) (state : State TContext)
      (_event : SCXML_Event TEvent) (w : World) :
  recorded_history this state = None ->
  (is_Some (candidates w !! name _event) \/ inherited (name _event) = false) \/
  (candidates w !! name _event = None /\
   inherited (name _event) = true /\
   next' this state _event w = (Throws TypeError_not_iterable, w)).
Proof.
  intros Hh.
  destruct (candidates w !! name _event) as [cached|] eqn:Hc; [left; left; by eexists|].
  destruct (inherited (name _event)) eqn:Hin; [|left; by right].
  right. split; [done|]. split; [done|]. by apply next_inherited.
Qed.

(** The whole of [next] when the loop selects [c] after the run [pre]. *)
Lemma next_selected (this : StateNode) (state : State TContext)
      (_event : SCXML_Event TEvent) (w : World)
      (pre post : list TransitionDefinition.t) (c : TransitionDefinition.t) :
  recorded_history this state = None ->
  inherited (name _event) = false ->
  candidates_for' w this (name _event) = pre ++ c :: post ->
  Forall (rejected' this state _event) pre ->
  passes' this state _event c ->
  next' this state _event w
  = (Returns (Some (resolve' this state c)),
     world_after' w this (name _event) (guards_of (pre ++ [c]))).
Proof.
  intros Hh Hown Hcands Hpre Hc. unfold next. rewrite Hh.
  unfold bind at 1. rewrite cached_candidates_spec, Hcands by done.
  unfold bind. rewrite select_rejected_prefix by done.
  rewrite select_passes by done. unfold ret, world_after. simpl.
  rewrite Hcands, app_nil_r, guards_of_app, app_assoc. done.
Qed.

(** The whole of [next] when no candidate is selected: the event is not
    handled, every guard has been called once. *)
Lemma next_unhandled (this : StateNode) (state : State TContext)
      (_event : SCXML_Event TEvent) (w : World) :
  recorded_history this state = None ->
  inherited (name _event) = false ->
  Forall (rejected' this state _event) (candidates_for' w this (name _event)) ->
  next' this state _event w
  = (Returns None,
     world_after' w this (name _event)
                  (guards_of (candidates_for' w this (name _event)))).
Proof.
  intros Hh Hown Hall. unfold next. rewrite Hh. unfold bind at 1.
  rewrite cached_candidates_spec by done. unfold bind.
  rewrite select_all_rejected by done. unfold ret, world_after. simpl.
  by rewrite app_nil_r.
Qed.

(** The whole of [next] when the guard of [c] throws after the run [pre]. *)
Lemma next_guard_throws (this : StateNode) (state : State TContext)
      (_event : SCXML_Event TEvent) (w : World)
      (pre post : list TransitionDefinition.t) (c : TransitionDefinition.t)
      (isIn : bool) (g : Guard) (err : Thrown) :
  recorded_history this state = None ->
  inherited (name _event) = false ->
  candidates_for' w this (name _event) = pre ++ c :: post ->
  Forall (rejected' this state _event) pre ->
  in_condition' this state c = Returns isIn ->
  TransitionDefinition.cond c = Some g ->
  evaluateGuard this g (context state) _event state = guard_throws err ->
  next' this state _event w
  = (Throws (guard_catch_message g (name _event) this err),
     world_after' w this (name _event) (guards_of pre ++ [g])).
Proof.
  intros Hh Hown Hcands Hpre Hin Hcond Hthrow.
  unfold next. rewrite Hh. unfold bind at 1.
  rewrite cached_candidates_spec, Hcands by done. unfold bind.
  rewrite select_rejected_prefix by done.
  erewrite select_guard_throws by done.
  unfold world_after. simpl. by rewrite Hcands, app_nil_r, app_assoc.
Qed.

(** C1.  When the loop is reached (no recorded history applies, and the
    event is not named like a member every object inherits) and the
    candidates for the event's type are [pre ++ c :: post], where every
    candidate of [pre] evaluates to a false guard or a false "in"
    condition and [c] is the first for which both hold (an absent one
    counts as true), [next] selects [c]: the result carries exactly [c],
    the guards evaluated are those of [pre] and of [c], one call each, in
    declaration order, and nothing of [post] is evaluated. *)
Theorem next_selects_first_passing_candidate
        (this : StateNode) (state : State TContext)
        (_event : SCXML_Event TEvent) (w : World)
        (pre post : list TransitionDefinition.t) (c : TransitionDefinition.t) :
  recorded_history this state = None ->
  inherited (name _event) = false ->
  candidates_for' w this (name _event) = pre ++ c :: post ->
  Forall (rejected' this state _event) pre ->
  passes' this state _event c ->
  exists (r : StateTransition.t TContext) (w' : World),
    next' this state _event w = (Returns (Some r), w') /\
    r = resolve' this state c /\
    StateTransition.transitions r = [c] /\
    StateTransition.actions r = TransitionDefinition.actions c /\
    guard_calls w' = guard_calls w ++ guards_of pre ++ guards_of [c] /\
    candidates w' = <[name _event := pre ++ c :: post]> (candidates w).
Proof.
  intros Hh Hown Hcands Hpre Hc.
  eexists _, _. split; [by apply (next_selected this state _event w pre post c)|].
  split; [done|]. unfold world_after. cbn [guard_calls candidates].
  rewrite Hcands, guards_of_app.
  repeat split; unfold resolve;
    destruct (TransitionDefinition.target c) as [[|]|]; done.
Qed.

(** C2.  On a history node with a recorded configuration under its id,
    [next] returns at once, whatever the event: no transition, no entry
    or exit node, no action, the recorded configuration; the candidate
    cache and the record of guard calls are untouched. *)
Theorem next_history_short_circuit
        (this : StateNode) (state : State TContext)
        (_event : SCXML_Event TEvent) (w : World) (recorded : list StateNode) :
  type this = history_type ->
  historyValue state !! id this = Some recorded ->
  next' this state _event w
  = (Returns (Some (StateTransition.Build [] recorded [] [] state [])), w).
Proof.
  intros Htype Hrec. unfold next, recorded_history. by rewrite Htype, Hrec.
Qed.




(** C10.  The guard of a candidate is evaluated even when the "in"
    condition of that candidate is false: the call is recorded, and if it
    throws, [next] throws although the candidate could not have been
    selected. *)
Theorem next_guard_evaluated_despite_false_in_condition
        (this : StateNode) (state : State TContext)
        (_event : SCXML_Event TEvent) (w : World)
        (pre post : list TransitionDefinition.t) (c : TransitionDefinition.t)
        (g : Guard) :
  recorded_history this state = None ->
  inherited (name _event) = false ->
  candidates_for' w this (name _event) = pre ++ c :: post ->
  Forall (rejected' this state _event) pre ->
  in_condition' this state c = Returns false ->
  TransitionDefinition.cond c = Some g ->
  (exists later,
      guard_calls (snd (next' this state _event w))
      = guard_calls w ++ guards_of pre ++ g :: later) /\
  (forall err,
      evaluateGuard this g (context state) _event state = guard_throws err ->
      fst (next' this state _event w)
      = Throws (guard_catch_message g (name _event) this err)).
Proof.
  intros Hh Hown Hcands Hpre Hin Hcond. split.
  - unfold next. rewrite Hh. unfold bind at 1.
    rewrite cached_candidates_spec, Hcands by done. unfold bind.
    rewrite select_rejected_prefix by done.
    rewrite (select_in_false this state _event c post _ g Hin Hcond).
    cbn [candidates guard_calls world_after].
    destruct (evaluateGuard this g (context state) _event state) as [passed|err].
    + match goal with
      | |- context [select' this state _event post ?w0] =>
          destruct (select_appends this state _event post w0) as [_ [more Hmore]];
          destruct (select' this state _event post w0) as [[[t|]|m] w1]
      end; cbn [snd guard_calls ret] in *; exists more; rewrite Hmore;
        by rewrite app_nil_r, <- !app_assoc.
    + exists []. cbn [snd guard_calls].
      by rewrite app_nil_r, <- !app_assoc.
  - intros err Hthrow.
    by rewrite (next_guard_throws this state _event w pre post c false g
                  err Hh Hown Hcands Hpre Hin Hcond Hthrow).
Qed.

(** C5.  When the selected candidate has no target ([undefined] or an
    empty array), the result has an empty entry set and an empty exit
    set, the actions of the candidate, and the configuration [[this]]
    when the value of the prior state is truthy (the empty one
    otherwise): the node is not re-entered. *)
Theorem next_targetless_transition
        (this : StateNode) (state : State TContext)
        (_event : SCXML_Event TEvent) (w : World)
        (pre post : list TransitionDefinition.t) (c : TransitionDefinition.t) :
  recorded_history this state = None ->
  inherited (name _event) = false ->
  candidates_for' w this (name _event) = pre ++ c :: post ->
  Forall (rejected' this state _event) pre ->
  passes' this state _event c ->
  TransitionDefinition.target c = None \/ TransitionDefinition.target c = Some [] ->
  exists (r : StateTransition.t TContext) (w' : World),
    next' this state _event w = (Returns (Some r), w') /\
    StateTransition.transitions r = [c] /\
    StateTransition.entrySet r = [] /\
    StateTransition.exitSet r = [] /\
    StateTransition.actions r = TransitionDefinition.actions c /\
    StateTransition.source r = state /\
    StateTransition.configuration r = (if truthy (value state) then [this] else []) /\
    (truthy (value state) = true -> StateTransition.configuration r = [this]).
Proof.
  intros Hh Hown Hcands Hpre Hc Htarget.
  eexists _, _. split; [by apply (next_selected this state _event w pre post c)|].
  unfold resolve.
  destruct Htarget as [-> | ->]; cbn; repeat split; try done.
  all: by intros ->.
Qed.


End NextFacts.







(** On [STEP] at [idle]: the first handler is passed over for its "in"
    condition although its guard holds, the second for its "in" condition,
    the third for its guard although its "in" condition holds; the fourth
    is selected, and the guard of the fifth is never called. *)
Lemma next_selects_first_passing_candidate_witness :
  exists (r : StateTransition.t unit) (w' : World),
    Pinned.next Example.idle Example.stateAtIdle (Sample.event "STEP") Example.fresh
    = (Returns (Some r), w') /\
    r = resolve getRelativeStateNodes_spec nodesFromChild_spec
                Example.idle Example.stateAtIdle Pinned.STEP4 /\
    StateTransition.transitions r = [Pinned.STEP4] /\
    StateTransition.actions r = [Sample.log] /\
    guard_calls w' = [] ++ [Pinned.open1; Pinned.shut] ++ [Pinned.open2] /\
    candidates w'
    = <["STEP" := [Pinned.STEP1; Pinned.STEP2; Pinned.STEP3]
                    ++ Pinned.STEP4 :: [Pinned.STEP5]]> ∅.
Proof.
  apply (next_selects_first_passing_candidate
           Pinned.getCandidates Pinned.evaluateGuard Sample.isStateId
           Sample.matches_state_id Sample.matches_relative
           getRelativeStateNodes_spec nodesFromChild_spec
           Example.idle Example.stateAtIdle (Sample.event "STEP") Example.fresh
           [Pinned.STEP1; Pinned.STEP2; Pinned.STEP3] [Pinned.STEP5] Pinned.STEP4).
  - reflexivity.
  - reflexivity.
  - reflexivity.
  - constructor; [|constructor; [|constructor; [|constructor]]].
    + exists false, true. repeat split; reflexivity.
    + exists false, true. repeat split; reflexivity.
    + exists true, false. repeat split; reflexivity.
  - split; reflexivity.
Defined.

(** The history node with the record [[idle; active]]. *)
Lemma next_history_short_circuit_witness :
  Sample.next Sample.hist Sample.stateWithHistory (Sample.event "GO") Example.fresh
  = (Returns (Some (StateTransition.Build [] [Example.idle; Example.active] [] []
                                          Sample.stateWithHistory [])),
     Example.fresh).
Proof.
  apply (next_history_short_circuit
           Sample.getCandidates Sample.evaluateGuard Sample.isStateId
           Sample.matches_state_id Sample.matches_relative
           getRelativeStateNodes_spec nodesFromChild_spec
           Sample.hist Sample.stateWithHistory (Sample.event "GO") Example.fresh
           [Example.idle; Example.active]).
  - reflexivity.
  - reflexivity.
Defined.



(** On [IN] at [idle]: the snapshot is not in [#machine.active], the guard is
    called all the same and throws. *)
Lemma next_guard_evaluated_despite_false_in_condition_witness :
  (exists later,
      guard_calls (snd (Sample.next Example.idle Example.stateAtIdle
                                    (Sample.event "IN") Example.fresh))
      = [] ++ [] ++ Sample.boom :: later) /\
  (forall err,
      Sample.evaluateGuard Example.idle Sample.boom tt (Sample.event "IN")
                           Example.stateAtIdle = guard_throws err ->
      fst (Sample.next Example.idle Example.stateAtIdle (Sample.event "IN")
                       Example.fresh)
      = Throws (guard_catch_message Sample.boom "IN" Example.idle err)).
Proof.
  apply (next_guard_evaluated_despite_false_in_condition
           Sample.getCandidates Sample.evaluateGuard Sample.isStateId
           Sample.matches_state_id Sample.matches_relative
           getRelativeStateNodes_spec nodesFromChild_spec
           Example.idle Example.stateAtIdle (Sample.event "IN") Example.fresh
           [] [] Sample.IN1 Sample.boom).
  - reflexivity.
  - reflexivity.
  - reflexivity.
  - constructor.
  - reflexivity.
  - reflexivity.
Defined.

(** On [PING] at [idle]: the targetless transition keeps [[idle]] and
    schedules [log]. *)
Lemma next_targetless_transition_witness :
  exists (r : StateTransition.t unit) (w' : World),
    Sample.next Example.idle Example.stateAtIdle (Sample.event "PING") Example.fresh
    = (Returns (Some r), w') /\
    StateTransition.transitions r = [Sample.PING] /\
    StateTransition.entrySet r = [] /\
    StateTransition.exitSet r = [] /\
    StateTransition.actions r = [Sample.log] /\
    StateTransition.source r = Example.stateAtIdle /\
    StateTransition.configuration r = [Example.idle] /\
    (true = true -> StateTransition.configuration r = [Example.idle]).
Proof.
  apply (next_targetless_transition
           Sample.getCandidates Sample.evaluateGuard Sample.isStateId
           Sample.matches_state_id Sample.matches_relative
           getRelativeStateNodes_spec nodesFromChild_spec
           Example.idle Example.stateAtIdle (Sample.event "PING") Example.fresh
           [] [] Sample.PING).
  - reflexivity.
  - reflexivity.
  - reflexivity.
  - constructor.
  - split; reflexivity.
  - left. reflexivity.
Defined.


(** * Properties of construction *)

Lemma Example_machine_states :
  states Example.machine = [("idle", Example.idle); ("active", Example.active)].
Proof. reflexivity. Qed.

(** Induction on configurations, through the list of child entries. *)
Lemma StateNodeConfig_nested_ind (P : StateNodeConfig -> Prop) :
  (forall config,
      (forall entries, config_states config = Some entries ->
                       Forall (fun entry => P (snd entry)) entries) ->
      P config) ->
  forall config, P config.
Proof.
  intros step. fix IH 1. intros [k i d t ini [entries|] h]; apply step; simpl.
  - intros ? [= <-].
    induction entries as [|[k' c'] entries IHentries]; constructor.
    + apply IH.
    + apply IHentries.
  - intros ? [=].
Qed.

Section ConstructionFacts.

Variable STATE_DELIMITER : string.
Variable MachineNode_delimiter : StateNodeConfig -> string.

Local Abbreviation new_StateNode' :=
  (new_StateNode STATE_DELIMITER MachineNode_delimiter).

(** What the constructor computes as id: the explicit id if truthy, else
    the machine key and the path joined with the delimiter of the node's
    own config, else [STATE_DELIMITER]; the machine's delimiter is never
    read. *)
Lemma new_StateNode_id (config : StateNodeConfig) (options : StateNodeOptions) :
  id (new_StateNode' config options)
  = or_string (config_id config)
      (join (or_string (config_delimiter config) STATE_DELIMITER)
            (machine_key_of config options :: path_of config options)).
Proof. destruct config; reflexivity. Qed.

Lemma new_StateNode_states (config : StateNodeConfig) (options : StateNodeOptions) :
  states (new_StateNode' config options)
  = match config_states config with
    | Some entries =>
        map (fun entry =>
               (fst entry,
                new_StateNode' (snd entry)
                  (Build_StateNodeOptions (fst entry)
                     (Some (Build_ParentRef
                              (path_of config options)
                              (machine_key_of config options)
                              (match _parent options with
                               | Some p => machine_delimiter p
                               | None => MachineNode_delimiter config
                               end))))))
            entries
    | None => []
    end.
Proof.
  destruct config as [k i d t ini [entries|] h]; [|reflexivity].
  cbn. apply map_ext. by intros [k' c'].
Qed.


Lemma new_StateNode_initial (config : StateNodeConfig) (options : StateNodeOptions) :
  initial (new_StateNode' config options) = config_initial config.
Proof. destruct config; reflexivity. Qed.

End ConstructionFacts.

(** ** The flat id lookup *)

Lemma descendants_unfold (this : StateNode) :
  descendants this = children_nodes (states this).
Proof. by destruct this. Qed.

Lemma children_nodes_cons (entry : string * StateNode)
      (children : list (string * StateNode)) :
  children_nodes (entry :: children)
  = (snd entry :: descendants (snd entry)) ++ children_nodes children.
Proof. reflexivity. Qed.








(** Induction on nodes, through the list of children. *)
Lemma StateNode_nested_ind (P : StateNode -> Prop) :
  (forall this, Forall (fun entry => P (snd entry)) (states this) -> P this) ->
  forall this, P this.
Proof.
  intros step. fix IH 1. intros [k i t p ini children h m]; apply step; simpl.
  induction children as [|[k' c'] children IHchildren]; constructor.
  - apply IH.
  - apply IHchildren.
Qed.




(** C7 (the code departs from the claim).  Every node without a truthy
    explicit id gets the machine key and its path joined with the delimiter
    of its own config, else the default one: [isMachine] is computed from
    [this.parent] before that field is assigned and is true for every node,
    so the machine's delimiter is never used.  Under a root that configures
    ["/"], the child [a] gets ["m.a"] where the claim gives ["m/a"], and
    the grandchild [b], which configures ["#"], gets ["m#a#b"] where the
    claim gives ["m/a/b"]. *)
Theorem constructor_joins_id_with_own_delimiter :
  (forall STATE_DELIMITER MachineNode_delimiter config options,
      id (new_StateNode STATE_DELIMITER MachineNode_delimiter config options)
      = or_string (config_id config)
          (join (or_string (config_delimiter config) STATE_DELIMITER)
                (machine_key_of config options :: path_of config options))) /\
  (forall MachineNode_delimiter,
      stateIds (Delimited.machine MachineNode_delimiter) = ["m"; "m.a"; "m#a#b"] /\
      stateIds (Delimited.machine MachineNode_delimiter)
      <> [join "/" ["m"]; join "/" ["m"; "a"]; join "/" ["m"; "a"; "b"]]).
Proof.
  split.
  - apply new_StateNode_id.
  - intros MachineNode_delimiter. split; [reflexivity|]. intros [=].
Qed.




(** * Properties of the initial state value *)

Lemma initialStateValue_unfold (this : StateNode) :
  initialStateValue this
  = let inits :=
      map (fun entry => (fst entry, (snd entry, initialStateValue (snd entry))))
          (states this) in
    match type this with
    | parallel =>
        match mapFilterValues_initial inits with
        | Returns entries => Returns (obj entries)
        | Throws message => Throws message
        end
    | _ =>
        match initial this with
        | Some initial_ =>
            match get_state inits initial_ with
            | None =>
                if inherited initial_ then Returns (obj [(initial_, undefined)])
                else
                  Throws ("Initial state '" +:+ initial_ +:+ "' not found on '"
                            +:+ key this +:+ "'")
            | Some (child, child_initial) =>
                if isLeafNode child then Returns (str initial_)
                else
                  match child_initial with
                  | Returns v => Returns (obj [(initial_, v)])
                  | Throws message => Throws message
                  end
            end
        | None => Returns undefined
        end
    end.
Proof. by destruct this. Qed.

Lemma get_state_map {A B} (g : A -> B) (entries : list (string * A)) (k : string) :
  get_state (map (fun entry => (fst entry, g (snd entry))) entries) k
  = g <$> get_state entries k.
Proof.
  induction entries as [|[k' a] entries IH]; [done|].
  cbn. destruct (String.eqb k' k); [done|apply IH].
Qed.

(** C6, as the code has it.  The constructor copies the initial key of the
    config without looking at the children, and returns a node whatever the
    key.  The key is checked when [initialStateValue] is read, by looking
    it up in [this.states]: on a node that is not parallel, a key that
    names no child and no member every object inherits makes the getter
    throw "Initial state '<key>' not found on '<node key>'"; a key that
    names no child but such a member ([toString], [constructor], ...)
    passes the check, and the value is the record holding [undefined]
    under that key; a node without an initial key is no error, its initial
    state value is [undefined]. *)
Theorem initial_key_is_checked_by_the_getter :
  (forall STATE_DELIMITER MachineNode_delimiter config options,
      initial (new_StateNode STATE_DELIMITER MachineNode_delimiter config options)
      = config_initial config) /\
  (forall this k,
      type this <> parallel ->
      initial this = Some k ->
      get_state (states this) k = None ->
      inherited k = false ->
      initialStateValue this
      = Throws ("Initial state '" +:+ k +:+ "' not found on '" +:+ key this +:+ "'")) /\
  (forall this k,
      type this <> parallel ->
      initial this = Some k ->
      get_state (states this) k = None ->
      inherited k = true ->
      initialStateValue this = Returns (obj [(k, undefined)])) /\
  (forall this,
      type this <> parallel ->
      initial this = None ->
      initialStateValue this = Returns undefined).
Proof.
  split; [apply new_StateNode_initial|]. split; [|split].
  - intros this k Htype Hinitial Hmissing Hown.
    rewrite initialStateValue_unfold. cbn zeta.
    rewrite Hinitial.
    rewrite (get_state_map (fun n => (n, initialStateValue n))), Hmissing.
    cbn. rewrite Hown. by destruct (type this).
  - intros this k Htype Hinitial Hmissing Hin.
    rewrite initialStateValue_unfold. cbn zeta.
    rewrite Hinitial.
    rewrite (get_state_map (fun n => (n, initialStateValue n))), Hmissing.
    cbn. rewrite Hin. by destruct (type this).
  - intros this Htype Hinitial.
    rewrite initialStateValue_unfold. cbn zeta. rewrite Hinitial.
    by destruct (type this).
Qed.

(** The three malformed nodes, read through the getter. *)
Lemma initial_key_is_checked_by_the_getter_witness :
  initialStateValue Malformed.dangling
  = Throws ("Initial state '" +:+ "nowhere" +:+ "' not found on '" +:+ "m" +:+ "'") /\
  initialStateValue Malformed.inherited_key = Returns (obj [("toString", undefined)]) /\
  initialStateValue Malformed.no_initial = Returns undefined.
Proof.
  split; [|split].
  - apply (proj1 (proj2 initial_key_is_checked_by_the_getter)
             Malformed.dangling "nowhere").
    + discriminate.
    + reflexivity.
    + reflexivity.
    + reflexivity.
  - apply (proj1 (proj2 (proj2 initial_key_is_checked_by_the_getter))
             Malformed.inherited_key "toString").
    + discriminate.
    + reflexivity.
    + reflexivity.
    + reflexivity.
  - apply (proj2 (proj2 (proj2 initial_key_is_checked_by_the_getter))
             Malformed.no_initial).
    + discriminate.
    + reflexivity.
Defined.

(** C6 fails as stated: the constructor returns a compound node for a
    config without initial key, and reading its initial state value is no
    error either; it returns a compound node for a config whose initial key
    names no child, and the error only comes from the getter. *)
Lemma constructor_accepts_broken_initial_key :
  (type Malformed.no_initial = compound /\
   initial Malformed.no_initial = None /\
   initialStateValue Malformed.no_initial = Returns undefined) /\
  (type Malformed.dangling = compound /\
   initial Malformed.dangling = Some "nowhere" /\
   get_state (states Malformed.dangling) "nowhere" = None /\
   initialStateValue Malformed.dangling
   = Throws "Initial state 'nowhere' not found on 'm'").
Proof. repeat split. Qed.

(** * Properties of the event surface *)

Lemma Set_add_elem_of (s : list string) (x y : string) :
  y ∈ Set_add s x <-> y ∈ s \/ y = x.
Proof.
  unfold Set_add. case_bool_decide as Hx.
  - split; [by left|]. intros [?| ->]; done.
  - rewrite elem_of_app, list_elem_of_singleton. done.
Qed.

Lemma Set_add_NoDup (s : list string) (x : string) :
  NoDup s -> NoDup (Set_add s x).
Proof.
  intros Hs. unfold Set_add. case_bool_decide as Hx; [done|].
  apply NoDup_app. split; [done|]. split; [|apply NoDup_singleton].
  intros y Hy ->%list_elem_of_singleton. done.
Qed.

Lemma fold_Set_add_elem_of (xs s : list string) (y : string) :
  y ∈ fold_left Set_add xs s <-> y ∈ s \/ y ∈ xs.
Proof.
  revert s. induction xs as [|x xs IH]; intros s; cbn.
  - split; [by left|]. intros [?|Hy]; [done|]. by apply elem_of_nil in Hy.
  - rewrite IH, Set_add_elem_of, elem_of_cons. tauto.
Qed.

Lemma fold_Set_add_NoDup (xs s : list string) :
  NoDup s -> NoDup (fold_left Set_add xs s).
Proof.
  revert s. induction xs as [|x xs IH]; intros s Hs; [done|].
  cbn. by apply IH, Set_add_NoDup.
Qed.

Lemma fold_Set_add_app (xs ys s : list string) :
  fold_left Set_add (xs ++ ys) s = fold_left Set_add ys (fold_left Set_add xs s).
Proof. apply fold_left_app. Qed.

(** Adding distinct new elements appends them. *)
Lemma fold_Set_add_fresh (xs s : list string) :
  NoDup (s ++ xs) -> fold_left Set_add xs s = s ++ xs.
Proof.
  revert s. induction xs as [|x xs IH]; intros s Hnodup; cbn.
  - by rewrite app_nil_r.
  - assert (Hx : x ∉ s).
    { apply NoDup_app in Hnodup as (_ & Hdisjoint & _).
      intros Hin. apply (Hdisjoint _ Hin), elem_of_cons. by left. }
    unfold Set_add at 2. rewrite bool_decide_eq_false_2 by done.
    rewrite IH; rewrite <- app_assoc; done.
Qed.

Lemma new_Set_NoDup (xs : list string) : NoDup (new_Set xs).
Proof. apply fold_Set_add_NoDup, NoDup_nil_2. Qed.

Lemma new_Set_idempotent (xs : list string) : new_Set (new_Set xs) = new_Set xs.
Proof.
  unfold new_Set at 1. apply (fold_Set_add_fresh (new_Set xs) []).
  apply new_Set_NoDup.
Qed.

Section EventsFacts.

Variable formatTransitions : StateNode -> list TransitionDefinition.t.

Local Abbreviation ownEvents' := (ownEvents formatTransitions).
Local Abbreviation events' := (events formatTransitions).
Local Abbreviation children_events' := (children_events formatTransitions).

(** The loop of lines 545-552 adds the events of every child. *)
Lemma events_loop (children : list (string * StateNode)) (acc : list string) :
  fold_left
    (fun acc entry =>
       let state := snd entry in
       if truthy_object (states state)
       then fold_left Set_add (events' state) acc
       else acc)
    children acc
  = fold_left Set_add (children_events' children) acc.
Proof.
  revert acc. induction children as [|[k child] children IH]; intros acc; [done|].
  cbn. unfold children_events in *. cbn. by rewrite fold_Set_add_app, IH.
Qed.

Lemma events_unfold (this : StateNode) :
  events' this
  = fold_left Set_add (children_events' (states this)) (ownEvents' this).
Proof.
  destruct this as [k i t p ini children h m]. cbn.
  unfold ownEvents at 1. rewrite new_Set_idempotent.
  apply events_loop.
Qed.

(** C9, as the code has it.  [events] is [ownEvents] followed by the
    events of every child not already present, in key order, without
    duplicates: both tests of the loop are on object references, which
    are truthy, so a child without substates contributes its events like
    any other. *)
Theorem events_cover_every_child (this : StateNode) :
  events' this
  = fold_left Set_add (children_events' (states this)) (ownEvents' this) /\
  (forall e,
      e ∈ events' this <->
      e ∈ ownEvents' this \/
      exists k child, (k, child) ∈ states this /\ e ∈ events' child) /\
  NoDup (events' this).
Proof.
  split; [apply events_unfold|]. split.
  - intros e. rewrite events_unfold, fold_Set_add_elem_of.
    apply or_iff_compat_l. unfold children_events.
    rewrite list_elem_of_In, in_concat. split.
    + intros (evs & Hevs & He). apply in_map_iff in Hevs as ([k child] & <- & Hin).
      exists k, child. by rewrite !list_elem_of_In.
    + intros (k & child & Hin & He). exists (events' child).
      rewrite <- !list_elem_of_In. split; [|done].
      by apply (list_elem_of_fmap_2 (fun entry => events' (snd entry)) _ (k, child)).
  - rewrite events_unfold. apply fold_Set_add_NoDup.
    unfold ownEvents. apply new_Set_NoDup.
Qed.

End EventsFacts.

(** C9 fails as stated: in the worked machine the root has no transition
    of its own and its two children have no substates, yet [START], which
    only the leaf [idle] handles, is among the events of the root. *)
Lemma events_include_leaf_children :
  events Example.formatTransitions Example.machine = ["START"] /\
  ownEvents Example.formatTransitions Example.machine = [] /\
  Forall (fun entry => states (snd entry) = []) (states Example.machine) /\
  ~ (forall e,
        e ∈ events Example.formatTransitions Example.machine <->
        e ∈ ownEvents Example.formatTransitions Example.machine \/
        exists k child,
          (k, child) ∈ states Example.machine /\ states child <> [] /\
          e ∈ events Example.formatTransitions child).
Proof.
  split; [reflexivity|]. split; [reflexivity|]. split.
  - rewrite Example_machine_states. by repeat constructor.
  - intros Hclaim. destruct (proj1 (Hclaim "START")) as [Hown|(k & child & Hin & Hsub & _)].
    + change (events Example.formatTransitions Example.machine) with ["START"].
      apply elem_of_cons. by left.
    + change (ownEvents Example.formatTransitions Example.machine) with (@nil string) in Hown.
      by apply elem_of_nil in Hown.
    + rewrite Example_machine_states in Hin.
      apply elem_of_cons in Hin as [[= -> ->]|Hin]; [by apply Hsub|].
      apply elem_of_cons in Hin as [[= -> ->]|Hin]; [by apply Hsub|].
      by apply elem_of_nil in Hin.
Qed.

(** * Further properties of the resolver *)

Section NextCases.

Context {TContext TEvent : Type}.
Variable getCandidates : StateNode -> string -> list TransitionDefinition.t.
Variable evaluateGuard :
  StateNode -> Guard -> TContext -> SCXML_Event TEvent -> State TContext -> GuardCall.
Variable isStateId : string -> bool.
Variable matches_state_id : StateNode -> State TContext -> string -> outcome bool.
Variable matches_relative : StateNode -> State TContext -> StateValue -> outcome bool.
Variable getRelativeStateNodes : StateNode -> State TContext -> list StateNode.
Variable nodesFromChild : StateNode -> StateNode -> list StateNode.

Local Abbreviation in_condition' :=
  (in_condition isStateId matches_state_id matches_relative).
Local Abbreviation select' :=
  (select evaluateGuard isStateId matches_state_id matches_relative).
Local Abbreviation resolve' := (resolve getRelativeStateNodes nodesFromChild).
Local Abbreviation next' :=
  (next getCandidates evaluateGuard isStateId matches_state_id matches_relative
        getRelativeStateNodes nodesFromChild).
Local Abbreviation passes' :=
  (passes evaluateGuard isStateId matches_state_id matches_relative).
Local Abbreviation rejected' :=
  (rejected evaluateGuard isStateId matches_state_id matches_relative).
Local Abbreviation candidates_for' := (candidates_for getCandidates).
Local Abbreviation world_after' := (world_after getCandidates).
Local Abbreviation loop_end' :=
  (loop_end evaluateGuard isStateId matches_state_id matches_relative).

(** X1.  When no recorded history applies and the event is not named like
    a member every object inherits, [next] returns [undefined] exactly
    when every candidate for the event's type evaluates without throwing to
    a false guard or a false "in" condition (in particular when there is no
    candidate); each guard has then been called once, in declaration
    order. *)
Theorem next_undefined_iff_no_candidate_passes
        (this : StateNode) (state : State TContext)
        (_event : SCXML_Event TEvent) (w : World) :
  recorded_history this state = None ->
  inherited (name _event) = false ->
  (Forall (rejected' this state _event) (candidates_for' w this (name _event)) ->
   next' this state _event w
   = (Returns None,
      world_after' w this (name _event)
                   (guards_of (candidates_for' w this (name _event))))) /\
  (fst (next' this state _event w) = Returns None ->
   Forall (rejected' this state _event) (candidates_for' w this (name _event))).
Proof.
  intros Hh Hown. split; [by apply next_unhandled|].
  destruct (next_loop_end getCandidates evaluateGuard isStateId matches_state_id
              matches_relative getRelativeStateNodes nodesFromChild
              this state _event w Hh Hown) as (o & gs & Hend & ->).
  cbn. intros Ho. destruct o as [[c|]|m]; try done.
  by inversion Hend.
Qed.

(** X2.  Whenever [next] returns a result that carries a transition, that
    transition is a candidate for the event's type whose guard and "in"
    condition both hold, every candidate declared before it was evaluated
    and rejected, and the result is the one computed from it. *)
Theorem next_result_comes_from_first_passing_candidate
        (this : StateNode) (state : State TContext)
        (_event : SCXML_Event TEvent) (w : World)
        (r : StateTransition.t TContext) (c : TransitionDefinition.t) :
  fst (next' this state _event w) = Returns (Some r) ->
  StateTransition.transitions r = [c] ->
  exists pre post,
    candidates_for' w this (name _event) = pre ++ c :: post /\
    Forall (rejected' this state _event) pre /\
    passes' this state _event c /\
    r = resolve' this state c /\
    guard_calls (snd (next' this state _event w))
    = guard_calls w ++ guards_of (pre ++ [c]).
Proof.
  intros Hr Hc.
  destruct (recorded_history this state) as [recorded|] eqn:Hh.
  { unfold next in Hr. rewrite Hh in Hr. cbn in Hr. by injection Hr as <-. }
  destruct (next_read_or_raise getCandidates evaluateGuard isStateId
              matches_state_id matches_relative getRelativeStateNodes
              nodesFromChild this state _event w Hh) as [Hread|(_ & _ & Hraise)];
    [|by rewrite Hraise in Hr].
  destruct (next_loop_end_read getCandidates evaluateGuard isStateId
              matches_state_id matches_relative getRelativeStateNodes
              nodesFromChild this state _event w Hh Hread)
    as (o & gs & Hend & Hnext).
  rewrite Hnext in *. cbn in *.
  destruct o as [[c0|]|m]; try done. injection Hr as <-.
  assert (c0 = c) as ->.
  { unfold resolve in Hc.
    destruct (TransitionDefinition.target c0) as [[|]|]; by injection Hc. }
  inversion Hend as [|pre ? post Heq Hpre Hpass| |]; subst.
  by exists pre, post.
Qed.

(** X3.  When the "in" condition of a candidate throws (the candidates
    before it were rejected; the event is not named like a member every
    object inherits), [next] throws that very message, unwrapped: only the
    guard is evaluated inside the [try].  The guard of that candidate is
    not called. *)
Theorem next_in_condition_throw_propagates
        (this : StateNode) (state : State TContext)
        (_event : SCXML_Event TEvent) (w : World)
        (pre post : list TransitionDefinition.t) (c : TransitionDefinition.t)
        (message : string) :
  recorded_history this state = None ->
  inherited (name _event) = false ->
  candidates_for' w this (name _event) = pre ++ c :: post ->
  Forall (rejected' this state _event) pre ->
  in_condition' this state c = Throws message ->
  next' this state _event w
  = (Throws message, world_after' w this (name _event) (guards_of pre)).
Proof.
  intros Hh Hown Hcands Hpre Hin.
  unfold next. rewrite Hh. unfold bind at 1.
  rewrite cached_candidates_spec, Hcands by done. unfold bind.
  rewrite select_rejected_prefix by done.
  rewrite (select_in_condition_throws _ _ _ _ _ _ _ _ _ _ message Hin).
  unfold world_after. cbn. by rewrite Hcands, app_nil_r.
Qed.

(** X5.  When no recorded history applies and the event is not named like
    a member every object inherits, [next] stores the candidates it
    iterated under the event's name and does nothing else to the cache,
    whether it returns a result, returns [undefined] or throws: an entry
    for another event is never changed, and the guard record only grows. *)
Theorem next_caches_only_the_event
        (this : StateNode) (state : State TContext)
        (_event : SCXML_Event TEvent) (w : World) :
  recorded_history this state = None ->
  inherited (name _event) = false ->
  let w' := snd (next' this state _event w) in
  candidates w' !! name _event = Some (candidates_for' w this (name _event)) /\
  (forall eventName, eventName <> name _event ->
                     candidates w' !! eventName = candidates w !! eventName) /\
  exists gs, guard_calls w' = guard_calls w ++ gs.
Proof.
  intros Hh Hown w'.
  destruct (next_loop_end getCandidates evaluateGuard isStateId matches_state_id
              matches_relative getRelativeStateNodes nodesFromChild
              this state _event w Hh Hown) as (o & gs & _ & Hnext).
  unfold w'. rewrite Hnext. unfold world_after. cbn. split; [|split].
  - apply lookup_insert_eq.
  - intros eventName Hne. by apply lookup_insert_ne.
  - by exists gs.
Qed.

(** X6.  Resolving the same event on the same snapshot again gives the
    same outcome and leaves the cache as it is; the candidates are not
    computed a second time (the second resolution may be given any other
    [getCandidates]). *)
Theorem next_again_gives_the_same_outcome
        (getCandidates2 : StateNode -> string -> list TransitionDefinition.t)
        (this : StateNode) (state : State TContext)
        (_event : SCXML_Event TEvent) (w : World) :
  let w1 := snd (next' this state _event w) in
  let again :=
    next getCandidates2 evaluateGuard isStateId matches_state_id matches_relative
         getRelativeStateNodes nodesFromChild this state _event w1 in
  fst again = fst (next' this state _event w) /\
  candidates (snd again) = candidates w1.
Proof.
  intros w1 again. subst w1 again.
  destruct (recorded_history this state) as [recorded|] eqn:Hh.
  { unfold next. by rewrite Hh. }
  destruct (next_read_or_raise getCandidates evaluateGuard isStateId
              matches_state_id matches_relative getRelativeStateNodes
              nodesFromChild this state _event w Hh) as [Hread|(Hc & Hin & Hraise)].
  2:{ rewrite Hraise. cbn [fst snd].
    by rewrite (next_inherited getCandidates2 evaluateGuard isStateId
                  matches_state_id matches_relative getRelativeStateNodes
                  nodesFromChild this state _event w Hh Hc Hin). }
  rewrite (next_as_select evaluateGuard isStateId matches_state_id matches_relative
             getRelativeStateNodes nodesFromChild getCandidates
             this state _event w Hh Hread).
  set (cands := candidates_for' w this (name _event)).
  pose proof (select_appends evaluateGuard isStateId matches_state_id
                matches_relative this state _event cands
                (world_after' w this (name _event) [])) as [Hcache1 _].
  destruct (select' this state _event cands (world_after' w this (name _event) []))
    as [o1 w1] eqn:Hsel1.
  cbn [fst snd] in *.
  assert (Hw1 : candidates w1 = <[name _event := cands]> (candidates w))
    by (by rewrite Hcache1).
  assert (Hread1 : is_Some (candidates w1 !! name _event) \/
                   inherited (name _event) = false).
  { left. rewrite Hw1, lookup_insert_eq. by eexists. }
  rewrite (next_as_select evaluateGuard isStateId matches_state_id matches_relative
             getRelativeStateNodes nodesFromChild getCandidates2
             this state _event w1 Hh Hread1).
  assert (Hcands : candidates_for getCandidates2 w1 this (name _event) = cands).
  { unfold candidates_for. by rewrite Hw1, lookup_insert_eq. }
  rewrite Hcands.
  pose proof (select_appends evaluateGuard isStateId matches_state_id
                matches_relative this state _event cands
                (world_after getCandidates2 w1 this (name _event) [])) as [Hcache2 _].
  pose proof (select_outcome_any_world evaluateGuard isStateId matches_state_id
                matches_relative this state _event cands
                (world_after getCandidates2 w1 this (name _event) [])
                (world_after' w this (name _event) [])) as Hsame.
  rewrite Hsel1 in Hsame.
  destruct (select' this state _event cands
              (world_after getCandidates2 w1 this (name _event) []))
    as [o2 w2].
  cbn [fst snd] in *. subst o2. split; [done|].
  rewrite Hcache2. unfold world_after. cbn [candidates].
  rewrite Hcands, Hw1. apply insert_insert_eq.
Qed.

(** X7.  Every result of [next] has the given snapshot as source and at
    most one transition; it exits nothing or exactly the node itself, and
    enters nothing when it exits nothing.  Without a transition (the
    history short-circuit) there are no actions either. *)
Theorem next_result_shape
        (this : StateNode) (state : State TContext)
        (_event : SCXML_Event TEvent) (w : World)
        (r : StateTransition.t TContext) :
  fst (next' this state _event w) = Returns (Some r) ->
  StateTransition.source r = state /\
  ((StateTransition.transitions r = [] /\ StateTransition.actions r = []) \/
   exists c, StateTransition.transitions r = [c] /\
             StateTransition.actions r = TransitionDefinition.actions c) /\
  (StateTransition.exitSet r = [] \/ StateTransition.exitSet r = [this]) /\
  (StateTransition.exitSet r = [] -> StateTransition.entrySet r = []).
Proof.
  intros Hr.
  destruct (recorded_history this state) as [recorded|] eqn:Hh.
  { unfold next in Hr. rewrite Hh in Hr. cbn in Hr. injection Hr as <-.
    cbn. repeat split; by left. }
  destruct (next_read_or_raise getCandidates evaluateGuard isStateId
              matches_state_id matches_relative getRelativeStateNodes
              nodesFromChild this state _event w Hh) as [Hread|(_ & _ & Hraise)];
    [|by rewrite Hraise in Hr].
  destruct (next_loop_end_read getCandidates evaluateGuard isStateId
              matches_state_id matches_relative getRelativeStateNodes
              nodesFromChild this state _event w Hh Hread)
    as (o & gs & _ & Hnext).
  rewrite Hnext in Hr. cbn in Hr.
  destruct o as [[c|]|m]; try done. injection Hr as <-.
  unfold resolve.
  destruct (TransitionDefinition.target c) as [[|t ts]|]; cbn;
    [|destruct (TransitionDefinition.internal c); cbn|].
  all: split; [done|]; split; [right; by exists c|].
  all: split; [(by left) || (by right)|done].
Qed.

End NextCases.

(** * Further properties of construction *)

Lemma new_StateNode_key (STATE_DELIMITER : string)
      (MachineNode_delimiter : StateNodeConfig -> string)
      (config : StateNodeConfig) (options : StateNodeOptions) :
  key (new_StateNode STATE_DELIMITER MachineNode_delimiter config options)
  = key_of config options.
Proof. by destruct config. Qed.

Lemma new_StateNode_path (STATE_DELIMITER : string)
      (MachineNode_delimiter : StateNodeConfig -> string)
      (config : StateNodeConfig) (options : StateNodeOptions) :
  path (new_StateNode STATE_DELIMITER MachineNode_delimiter config options)
  = path_of config options.
Proof. by destruct config. Qed.

(** X8.  The children of a constructed node are the entries of
    [config.states], in the same order and under the same keys; the key of
    a child is its config's [key] if truthy, else its entry key, and its
    path is the path of the parent followed by that key.  A config without
    [states] gives a node without children. *)
Theorem new_StateNode_children
        (STATE_DELIMITER : string) (MachineNode_delimiter : StateNodeConfig -> string)
        (config : StateNodeConfig) (options : StateNodeOptions) :
  let this := new_StateNode STATE_DELIMITER MachineNode_delimiter config options in
  Forall2 (fun child entry =>
             fst child = fst entry /\
             key (snd child) = or_string (config_key (snd entry)) (fst entry) /\
             path (snd child) = path this ++ [key (snd child)])
          (states this) (default [] (config_states config)).
Proof.
  intros this. unfold this.
  rewrite new_StateNode_states, (new_StateNode_path _ _ config options).
  destruct (config_states config) as [entries|]; [|constructor].
  cbn [default]. induction entries as [|[k c] entries IH]; constructor; [|done].
  cbn [fst snd]. by rewrite new_StateNode_key, new_StateNode_path.
Qed.

Lemma children_nodes_elem_of (children : list (string * StateNode)) (d : StateNode) :
  d ∈ children_nodes children <->
  exists entry, entry ∈ children /\ (d = snd entry \/ d ∈ descendants (snd entry)).
Proof.
  induction children as [|entry children IH].
  - split; [by intros ?%elem_of_nil|]. by intros (? & ?%elem_of_nil & _).
  - rewrite children_nodes_cons, elem_of_app, elem_of_cons, IH. split.
    + intros [[->|Hd]|(entry' & Hin & Hd)].
      * exists entry. split; [apply elem_of_cons; by left|by left].
      * exists entry. split; [apply elem_of_cons; by left|by right].
      * exists entry'. split; [apply elem_of_cons; by right|done].
    + intros (entry' & [->|Hin]%elem_of_cons & Hd).
      * left. destruct Hd; [by left|by right].
      * right. by exists entry'.
Qed.

Lemma new_StateNode_descendants_paths (STATE_DELIMITER : string)
      (MachineNode_delimiter : StateNodeConfig -> string) (config : StateNodeConfig) :
  forall options d,
    d ∈ descendants (new_StateNode STATE_DELIMITER MachineNode_delimiter config options) ->
    exists keys,
      keys <> [] /\
      path d
      = path (new_StateNode STATE_DELIMITER MachineNode_delimiter config options)
          ++ keys.
Proof.
  induction config as [config IH] using StateNodeConfig_nested_ind.
  intros options d. rewrite descendants_unfold, children_nodes_elem_of.
  rewrite new_StateNode_states, new_StateNode_path.
  destruct (config_states config) as [entries|];
    [|by intros (? & ?%elem_of_nil & _)].
  specialize (IH entries eq_refl).
  intros ([k child] & Hin & Hd).
  apply list_elem_of_fmap in Hin as ([k' cfg] & [= -> ->] & Hin).
  rewrite Forall_forall in IH. specialize (IH _ Hin). cbn [fst snd] in *.
  destruct Hd as [->|Hd].
  - rewrite new_StateNode_path. unfold path_of at 1. cbn. by eexists [_].
  - destruct (IH _ _ Hd) as (keys & Hkeys & ->).
    rewrite new_StateNode_path. unfold path_of at 1. cbn.
    exists (key_of cfg (Build_StateNodeOptions k' None) :: keys).
    split; [done|]. by rewrite <- app_assoc.
Qed.

(** X9.  In a constructed tree the path of every node below a node is the
    path of that node followed by at least one key: paths grow strictly
    downwards, and no node is among the nodes below itself. *)
Theorem descendants_extend_the_path
        (STATE_DELIMITER : string) (MachineNode_delimiter : StateNodeConfig -> string)
        (config : StateNodeConfig) (options : StateNodeOptions) :
  let this := new_StateNode STATE_DELIMITER MachineNode_delimiter config options in
  (forall d, d ∈ descendants this ->
             exists keys, keys <> [] /\ path d = path this ++ keys) /\
  this ∉ descendants this.
Proof.
  intros this. split; [apply new_StateNode_descendants_paths|].
  intros Hself.
  destruct (new_StateNode_descendants_paths _ _ _ _ _ Hself) as (keys & Hkeys & Hpath).
  apply (f_equal length) in Hpath. rewrite length_app in Hpath.
  fold this in Hpath. destruct keys; [done|]. cbn in Hpath. lia.
Qed.



(** * Further properties of the event surface *)

Lemma new_Set_elem_of (xs : list string) (y : string) : y ∈ new_Set xs <-> y ∈ xs.
Proof.
  unfold new_Set. rewrite fold_Set_add_elem_of. split; [|by right].
  by intros [?%elem_of_nil|?].
Qed.

Lemma fold_Set_add_prefix (xs s : list string) :
  exists added, fold_left Set_add xs s = s ++ added.
Proof.
  revert s. induction xs as [|x xs IH]; intros s; cbn.
  - exists []. by rewrite app_nil_r.
  - unfold Set_add at 2. case_bool_decide; [apply IH|].
    destruct (IH (s ++ [x])) as [added ->].
    exists (x :: added). by rewrite <- app_assoc.
Qed.

Section EventSurfaceFacts.

Variable formatTransitions : StateNode -> list TransitionDefinition.t.

Local Abbreviation transitions' := (transitions formatTransitions).
Local Abbreviation ownEvents' := (ownEvents formatTransitions).
Local Abbreviation events' := (events formatTransitions).
Local Abbreviation handles' := (handles formatTransitions).
Local Abbreviation on' := (on formatTransitions).

(** The test of lines 566-572, spelled out. *)
Lemma not_inert_spec (transition : TransitionDefinition.t) :
  not_inert transition = true <->
  is_Some (TransitionDefinition.target transition) \/
  TransitionDefinition.actions transition <> [] \/
  TransitionDefinition.internal transition = false.
Proof.
  unfold not_inert.
  destruct (TransitionDefinition.target transition) as [nodes|];
    destruct (TransitionDefinition.actions transition) as [|action actions];
    destruct (TransitionDefinition.internal transition); cbn; split; try done.
  all: try (intros _; left; by eexists).
  all: try (intros _; right; left; done).
  all: try (intros _; right; right; done).
  intros [[? [=]]|[?|?]]; done.
Qed.

Lemma ownEvents_elem_of (this : StateNode) (e : string) :
  e ∈ ownEvents' this <->
  exists transition,
    transition ∈ transitions' this /\
    TransitionDefinition.eventType transition = e /\
    (is_Some (TransitionDefinition.target transition) \/
     TransitionDefinition.actions transition <> [] \/
     TransitionDefinition.internal transition = false).
Proof.
  unfold ownEvents. rewrite new_Set_elem_of, list_elem_of_fmap. split.
  - intros (t & -> & [Hok Hin]%list_elem_of_filter).
    exists t. repeat split; [done|]. by apply not_inert_spec, Is_true_true.
  - intros (t & Hin & <- & Hok). exists t. split; [done|].
    apply list_elem_of_filter. split; [|done].
    by apply Is_true_true, not_inert_spec.
Qed.

(** X11.  [ownEvents] has no duplicates and holds exactly the event types
    of the transitions of the node that have a target (an empty list of
    targets included), or some action, or are not marked internal: a
    transition without target, without action and with the internal flag
    contributes nothing. *)
Theorem ownEvents_are_the_types_of_the_effective_transitions
        (this : StateNode) (e : string) :
  NoDup (ownEvents' this) /\
  (e ∈ ownEvents' this <->
   exists transition,
     transition ∈ transitions' this /\
     TransitionDefinition.eventType transition = e /\
     (is_Some (TransitionDefinition.target transition) \/
      TransitionDefinition.actions transition <> [] \/
      TransitionDefinition.internal transition = false)).
Proof.
  split; [apply new_Set_NoDup|apply ownEvents_elem_of].
Qed.

Lemma events_elem_of_children (this : StateNode) (e : string) :
  e ∈ events' this <->
  e ∈ ownEvents' this \/
  exists entry, entry ∈ states this /\ e ∈ events' (snd entry).
Proof.
  rewrite events_unfold, fold_Set_add_elem_of.
  apply or_iff_compat_l. unfold children_events.
  rewrite list_elem_of_In, in_concat. split.
  - intros (evs & Hevs & He). apply in_map_iff in Hevs as (entry & <- & Hin).
    exists entry. by rewrite !list_elem_of_In.
  - intros (entry & Hin & He). exists (events' (snd entry)).
    rewrite <- !list_elem_of_In. split; [|done].
    by apply (list_elem_of_fmap_2 (fun entry => events' (snd entry))).
Qed.

(** X12.  An event type is among the [events] of a node exactly when it is
    an own event of the node or of some node below it, at any depth, and
    [handles] answers exactly that. *)
Theorem events_are_the_own_events_of_the_subtree (this : StateNode) (e : string) :
  (e ∈ events' this <->
   exists n, n ∈ this :: descendants this /\ e ∈ ownEvents' n) /\
  (handles' this e = true <->
   exists n, n ∈ this :: descendants this /\ e ∈ ownEvents' n).
Proof.
  assert (Hevents : e ∈ events' this <->
                    exists n, n ∈ this :: descendants this /\ e ∈ ownEvents' n).
  { induction this as [this IH] using StateNode_nested_ind.
    rewrite events_elem_of_children. split.
    - intros [Hown|(entry & Hin & He)].
      + exists this. split; [apply elem_of_cons; by left|done].
      + rewrite Forall_forall in IH.
        apply (IH _ Hin) in He as (n & Hn & Hown).
        exists n. split; [|done]. apply elem_of_cons. right.
        rewrite descendants_unfold, children_nodes_elem_of.
        exists entry. split; [done|]. by apply elem_of_cons in Hn.
    - intros (n & [->|Hn]%elem_of_cons & Hown); [by left|]. right.
      rewrite descendants_unfold, children_nodes_elem_of in Hn.
      destruct Hn as (entry & Hin & Hn). exists entry. split; [done|].
      rewrite Forall_forall in IH. apply (IH _ Hin).
      exists n. split; [|done]. apply elem_of_cons.
      destruct Hn; [by left|by right]. }
  split; [done|]. unfold handles. by rewrite bool_decide_eq_true.
Qed.

(** X13.  [events] begins with the own events of the node, in their
    order; the event types of the nodes below follow. *)
Theorem events_begin_with_the_own_events (this : StateNode) :
  exists below, events' this = ownEvents' this ++ below.
Proof. rewrite events_unfold. apply fold_Set_add_prefix. Qed.

(** What a reduction that does not throw leaves under an event type. *)
Lemma on_reduce_lookup (ts : list TransitionDefinition.t) (e : string) :
  forall map map' : gmap string (list TransitionDefinition.t),
    on_reduce ts map = Returns map' ->
    map' !! e
    = match filter (fun t => TransitionDefinition.eventType t = e) ts with
      | [] => map !! e
      | t :: rest => Some (default [] (map !! e) ++ t :: rest)
      end.
Proof.
  induction ts as [|t ts IH]; intros map map' Hred; cbn [on_reduce] in Hred.
  - by injection Hred as <-.
  - destruct (on_reducer map t) as [map1|message] eqn:Hstep; [|done].
    rewrite (IH _ _ Hred). rewrite filter_cons.
    unfold on_reducer in Hstep.
    assert (Hmap1 : map1 = <[TransitionDefinition.eventType t
                             := default [] (map !! TransitionDefinition.eventType t)
                                        ++ [t]]> map).
    { destruct (map !! TransitionDefinition.eventType t) as [bucket|];
        [by injection Hstep as <-|].
      destruct (inherited (TransitionDefinition.eventType t)); [done|].
      by injection Hstep as <-. }
    subst map1. case_decide as Ht.
    + rewrite Ht, lookup_insert_eq. cbn [default].
      destruct (filter _ ts); [done|]. unfold Datatypes.id. by rewrite <- app_assoc.
    + by rewrite lookup_insert_ne.
Qed.

(** The reduction does not throw when no event type is the name of an
    inherited member. *)
Lemma on_reduce_returns (ts : list TransitionDefinition.t) :
  forall map : gmap string (list TransitionDefinition.t),
    Forall (fun t => inherited (TransitionDefinition.eventType t) = false) ts ->
    exists map', on_reduce ts map = Returns map'.
Proof.
  induction ts as [|t ts IH]; intros map Hown; [by eexists|].
  apply Forall_cons in Hown as [Ht Hts]. cbn [on_reduce]. unfold on_reducer.
  destruct (map !! TransitionDefinition.eventType t) as [bucket|]; [by apply IH|].
  rewrite Ht. by apply IH.
Qed.

(** It throws at the first event type that is one, the accumulator having
    no own property of such a name. *)
Lemma on_reduce_inherited (ts : list TransitionDefinition.t) :
  forall map : gmap string (list TransitionDefinition.t),
    (forall k, inherited k = true -> map !! k = None) ->
    Exists (fun t => inherited (TransitionDefinition.eventType t) = true) ts ->
    on_reduce ts map = Throws TypeError_push_is_not_a_function.
Proof.
  induction ts as [|t ts IH]; intros map Hmap Hex; [by apply Exists_nil in Hex|].
  cbn [on_reduce]. unfold on_reducer.
  destruct (inherited (TransitionDefinition.eventType t)) eqn:Ht.
  - by rewrite (Hmap _ Ht).
  - apply Exists_cons in Hex as [Hhead|Htail]; [congruence|].
    destruct (map !! TransitionDefinition.eventType t) as [bucket|]; apply IH; try done.
    all: intros k Hk; rewrite lookup_insert_ne; [by apply Hmap|congruence].
Qed.

(** X14.  When no transition of the node has the name of a member every
    object inherits as event type, [on] maps an event type to the
    transitions of the node with that type, in declaration order; an event
    type without transition is not a key (no bucket is ever empty), and
    every transition is in the bucket of its type.  When some transition
    has such an event type ([toString], [constructor], ...), the getter
    raises a [TypeError]: the accumulator already has a member of that
    name, which is no array. *)
Theorem on_groups_transitions_by_event_type (this : StateNode) :
  (Forall (fun t => inherited (TransitionDefinition.eventType t) = false)
          (transitions' this) ->
   exists map,
     on' this = Returns map /\
     (forall e,
         map !! e
         = match filter (fun t => TransitionDefinition.eventType t = e)
                        (transitions' this) with
           | [] => None
           | t :: rest => Some (t :: rest)
           end) /\
     (forall transition,
         transition ∈ transitions' this ->
         exists bucket,
           map !! TransitionDefinition.eventType transition = Some bucket /\
           transition ∈ bucket)) /\
  (Exists (fun t => inherited (TransitionDefinition.eventType t) = true)
          (transitions' this) ->
   on' this = Throws TypeError_push_is_not_a_function).
Proof.
  unfold on. split.
  - intros Hown.
    destruct (on_reduce_returns (transitions' this) ∅ Hown) as [map Hmap].
    exists map. split; [done|]. split.
    + intros e. rewrite (on_reduce_lookup _ e _ _ Hmap), lookup_empty.
      by destruct (filter _ _).
    + intros t Hin.
      rewrite (on_reduce_lookup _ (TransitionDefinition.eventType t) _ _ Hmap),
        lookup_empty.
      assert (Hf : t ∈ filter (fun t' => TransitionDefinition.eventType t'
                                          = TransitionDefinition.eventType t)
                             (transitions' this))
        by by apply list_elem_of_filter.
      destruct (filter _ _) as [|t0 rest]; [by apply elem_of_nil in Hf|].
      by exists (t0 :: rest).
  - intros Hex. apply on_reduce_inherited; [|done]. intros k _. apply lookup_empty.
Qed.

(** X15.  Whenever [on] returns, the own events of the node are the keys
    of the map whose bucket holds a transition that has a target, or some
    action, or is not marked internal: a key of [on] with only inert
    transitions is not an own event. *)
Theorem ownEvents_are_the_effective_keys_of_on
        (this : StateNode) (map : gmap string (list TransitionDefinition.t))
        (e : string) :
  on' this = Returns map ->
  (e ∈ ownEvents' this <->
   exists bucket transition,
     map !! e = Some bucket /\ transition ∈ bucket /\
     (is_Some (TransitionDefinition.target transition) \/
      TransitionDefinition.actions transition <> [] \/
      TransitionDefinition.internal transition = false)).
Proof.
  intros Hmap. rewrite ownEvents_elem_of.
  unfold on in Hmap. rewrite (on_reduce_lookup _ e _ _ Hmap), lookup_empty. split.
  - intros (t & Hin & He & Hok).
    assert (Hf : t ∈ filter (fun t' => TransitionDefinition.eventType t' = e)
                           (transitions' this))
      by by apply list_elem_of_filter.
    destruct (filter _ _) as [|t0 rest]; [by apply elem_of_nil in Hf|].
    by exists (t0 :: rest), t.
  - intros (bucket & t & Hbucket & Hin & Hok).
    destruct (filter _ _) as [|t0 rest] eqn:Hf; [done|].
    injection Hbucket as <-. rewrite <- Hf in Hin.
    apply list_elem_of_filter in Hin as [He Hin]. by exists t.
Qed.

End EventSurfaceFacts.

(** * Properties of the invoked services *)

Lemma string_length_append (a b : string) :
  String.length (a +:+ b) = String.length a + String.length b.
Proof.
  induction a as [|x a IH]; [done|].
  change (S (String.length (a +:+ b)) = S (String.length a + String.length b)).
  by rewrite IH.
Qed.

Lemma string_append_inj_r (c a b : string) : a +:+ c = b +:+ c -> a = b.
Proof.
  revert b. induction a as [|x a IH]; intros [|y b] Heq; [done| | |].
  - apply (f_equal String.length) in Heq.
    rewrite !string_length_append in Heq. cbn in Heq. lia.
  - apply (f_equal String.length) in Heq.
    rewrite !string_length_append in Heq. cbn in Heq. lia.
  - change (String x (a +:+ c) = String y (b +:+ c)) in Heq.
    injection Heq as -> Heq. by rewrite (IH _ Heq).
Qed.

Lemma invocation_id_inj (this : StateNode) (i j : nat) :
  invocation_id this i = invocation_id this j -> i = j.
Proof.
  unfold invocation_id. intros Heq.
  apply String.app_inj in Heq. apply String.app_inj in Heq.
  apply string_append_inj_r in Heq. by apply (inj pretty) in Heq.
Qed.

Section InvokeFacts.

Context {Invocable Implementation : Type}.
Variable toInvokeConfig : Invocable -> string -> InvokeConfig Implementation.
Variable actionTypes_invoke : string.

Local Abbreviation invoke_callback' := (invoke_callback toInvokeConfig actionTypes_invoke).
Local Abbreviation invoke_map' := (invoke_map toInvokeConfig actionTypes_invoke).
Local Abbreviation invoke' := (invoke toInvokeConfig actionTypes_invoke).

Lemma invoke_callback_definition (this : StateNode) (invocable : Invocable) (i : nat)
      (table1 table2 : gmap string Implementation) :
  fst (invoke_callback' this invocable i table1)
  = fst (invoke_callback' this invocable i table2).
Proof. done. Qed.

(** The src of the definition the callback returns. *)
Lemma invoke_callback_src (this : StateNode) (invocable : Invocable) (i : nat)
      (table : gmap string Implementation) :
  let definition := fst (invoke_callback' this invocable i table) in
  match invokeConfig_src (invoke_config definition) with
  | src_string s => invoke_src definition = s
  | src_implementation _ => invoke_src definition = invoke_id definition
  end.
Proof.
  unfold invoke_callback. cbn [fst invoke_src invoke_id invoke_config].
  by destruct (invokeConfig_src _).
Qed.

(** The table the callback leaves. *)
Lemma invoke_callback_table (this : StateNode) (invocable : Invocable) (i : nat)
      (table : gmap string Implementation) :
  let definition := fst (invoke_callback' this invocable i table) in
  snd (invoke_callback' this invocable i table)
  = match invokeConfig_src (invoke_config definition) with
    | src_string _ => table
    | src_implementation implementation =>
        if service_found table (invoke_id definition) then table
        else <[invoke_id definition := implementation]> table
    end.
Proof.
  unfold invoke_callback. cbn [fst snd invoke_src invoke_id invoke_config].
  by destruct (invokeConfig_src _).
Qed.

Lemma service_found_false (table : gmap string Implementation) (k : string) :
  service_found table k = false <-> table !! k = None /\ inherited k = false.
Proof.
  unfold service_found. rewrite orb_false_iff, bool_decide_eq_false.
  by rewrite <- eq_None_not_Some.
Qed.

Lemma invoke_callback_keeps (this : StateNode) (invocable : Invocable) (i : nat)
      (table : gmap string Implementation) (k : string) (v : Implementation) :
  table !! k = Some v ->
  snd (invoke_callback' this invocable i table) !! k = Some v.
Proof.
  intros Hk. rewrite invoke_callback_table. cbn zeta.
  destruct (invokeConfig_src _) as [s|implementation]; [done|].
  destruct (service_found table _) eqn:Hfound; [done|].
  apply service_found_false in Hfound as [Hfree _].
  rewrite lookup_insert_ne; [done|]. intros <-. congruence.
Qed.

Lemma invoke_callback_new (this : StateNode) (invocable : Invocable) (i : nat)
      (table : gmap string Implementation) (k : string) (v : Implementation) :
  snd (invoke_callback' this invocable i table) !! k = Some v ->
  table !! k = Some v \/
  (let definition := fst (invoke_callback' this invocable i table) in
   invoke_src definition = k /\ invoke_id definition = k /\
   invokeConfig_src (invoke_config definition) = src_implementation v).
Proof.
  rewrite invoke_callback_table. cbn zeta.
  pose proof (invoke_callback_src this invocable i table) as Hsrc. cbn zeta in Hsrc.
  destruct (invokeConfig_src _) as [s|implementation]; [by left|].
  destruct (service_found table _); [by left|].
  destruct (decide (invoke_id (fst (invoke_callback' this invocable i table)) = k))
    as [<-|Hne].
  - rewrite lookup_insert_eq. intros [= ->]. by right.
  - rewrite lookup_insert_ne by done. by left.
Qed.

(** Nothing is ever stored under the name of an inherited member. *)
Lemma invoke_callback_inherited (this : StateNode) (invocable : Invocable) (i : nat)
      (table : gmap string Implementation) (k : string) :
  inherited k = true ->
  snd (invoke_callback' this invocable i table) !! k = table !! k.
Proof.
  intros Hk. rewrite invoke_callback_table. cbn zeta.
  destruct (invokeConfig_src _) as [s|implementation]; [done|].
  destruct (service_found table _) eqn:Hfound; [done|].
  apply service_found_false in Hfound as [_ Hown].
  rewrite lookup_insert_ne; [done|]. intros <-. congruence.
Qed.

Lemma invoke_callback_settled (this : StateNode) (invocable : Invocable) (i : nat)
      (table : gmap string Implementation) :
  settled (snd (invoke_callback' this invocable i table))
          (fst (invoke_callback' this invocable i table)).
Proof.
  unfold settled. rewrite invoke_callback_table. cbn zeta.
  pose proof (invoke_callback_src this invocable i table) as Hsrc. cbn zeta in Hsrc.
  destruct (invokeConfig_src _) as [s|implementation]; [done|].
  split; [done|]. rewrite Hsrc.
  destruct (service_found table _) eqn:Hfound; [done|].
  unfold service_found. by rewrite lookup_insert_eq.
Qed.

Lemma invoke_callback_fixed (this : StateNode) (invocable : Invocable) (i : nat)
      (table : gmap string Implementation) :
  settled table (fst (invoke_callback' this invocable i table)) ->
  snd (invoke_callback' this invocable i table) = table.
Proof.
  unfold settled. rewrite invoke_callback_table. cbn zeta.
  destruct (invokeConfig_src _) as [s|implementation]; [done|].
  intros [-> ->]. done.
Qed.

Lemma settled_mono (table1 table2 : gmap string Implementation)
      (definition : InvokeDefinition Implementation) :
  (forall k v, table1 !! k = Some v -> table2 !! k = Some v) ->
  settled table1 definition -> settled table2 definition.
Proof.
  unfold settled, service_found. intros Hsub.
  destruct (invokeConfig_src _); [done|].
  intros [Hid Hfound]. split; [done|].
  apply orb_true_iff in Hfound as [Hv|Hin]; [|by rewrite Hin, orb_true_r].
  apply bool_decide_eq_true in Hv as [v Hv].
  apply orb_true_iff. left. apply bool_decide_eq_true. exists v. by apply Hsub.
Qed.

Lemma invoke_map_cons (this : StateNode) (i : nat) (invocable : Invocable)
      (rest : list Invocable) (table : gmap string Implementation) :
  invoke_map' this i (invocable :: rest) table
  = (fst (invoke_callback' this invocable i table)
       :: fst (invoke_map' this (S i) rest (snd (invoke_callback' this invocable i table))),
     snd (invoke_map' this (S i) rest (snd (invoke_callback' this invocable i table)))).
Proof.
  cbn [invoke_map].
  destruct (invoke_callback' this invocable i table) as [d t1].
  cbn [fst snd]. by destruct (invoke_map' this (S i) rest t1) as [ds t2].
Qed.

Lemma invoke_map_definitions (this : StateNode) (invocables : list Invocable) :
  forall i (table1 table2 : gmap string Implementation),
    fst (invoke_map' this i invocables table1)
    = fst (invoke_map' this i invocables table2).
Proof.
  induction invocables as [|invocable rest IH]; intros i table1 table2; [done|].
  rewrite !invoke_map_cons. cbn [fst]. f_equal. apply IH.
Qed.

Lemma invoke_map_keeps (this : StateNode) (invocables : list Invocable) :
  forall i (table : gmap string Implementation) k v,
    table !! k = Some v ->
    snd (invoke_map' this i invocables table) !! k = Some v.
Proof.
  induction invocables as [|invocable rest IH]; intros i table k v Hk; [done|].
  rewrite invoke_map_cons. cbn [snd]. by apply IH, invoke_callback_keeps.
Qed.

Lemma invoke_map_new (this : StateNode) (invocables : list Invocable) :
  forall i (table : gmap string Implementation) k v,
    snd (invoke_map' this i invocables table) !! k = Some v ->
    table !! k = Some v \/
    exists definition,
      definition ∈ fst (invoke_map' this i invocables table) /\
      invoke_src definition = k /\ invoke_id definition = k /\
      invokeConfig_src (invoke_config definition) = src_implementation v.
Proof.
  induction invocables as [|invocable rest IH]; intros i table k v Hk; [by left|].
  rewrite invoke_map_cons in Hk |- *. cbn [fst snd] in *.
  destruct (IH _ _ _ _ Hk) as [Hstep|(d & Hin & Hd)].
  - destruct (invoke_callback_new _ _ _ _ _ _ Hstep) as [?|Hd]; [by left|].
    right. eexists. split; [apply elem_of_cons; by left|done].
  - right. exists d. split; [apply elem_of_cons; by right|done].
Qed.

Lemma invoke_map_inherited (this : StateNode) (invocables : list Invocable) :
  forall i (table : gmap string Implementation) k,
    inherited k = true ->
    snd (invoke_map' this i invocables table) !! k = table !! k.
Proof.
  induction invocables as [|invocable rest IH]; intros i table k Hk; [done|].
  rewrite invoke_map_cons. cbn [snd]. rewrite IH by done.
  by apply invoke_callback_inherited.
Qed.

Lemma invoke_map_settled (this : StateNode) (invocables : list Invocable) :
  forall i (table : gmap string Implementation),
    Forall (settled (snd (invoke_map' this i invocables table)))
           (fst (invoke_map' this i invocables table)).
Proof.
  induction invocables as [|invocable rest IH]; intros i table; [constructor|].
  rewrite invoke_map_cons. cbn [fst snd]. constructor; [|apply IH].
  eapply settled_mono; [|apply invoke_callback_settled].
  intros k v. apply invoke_map_keeps.
Qed.

Lemma invoke_map_fixed (this : StateNode) (invocables : list Invocable) :
  forall i (table : gmap string Implementation),
    Forall (settled table) (fst (invoke_map' this i invocables table)) ->
    snd (invoke_map' this i invocables table) = table.
Proof.
  induction invocables as [|invocable rest IH]; intros i table Hall; [done|].
  rewrite invoke_map_cons in Hall |- *. cbn [fst snd] in *.
  apply Forall_cons in Hall as [Hhead Hrest].
  rewrite (invoke_callback_fixed _ _ _ _ Hhead) in Hrest |- *. by apply IH.
Qed.

Lemma invoke_map_lookup (this : StateNode) (invocables : list Invocable) :
  forall i (table : gmap string Implementation) n definition,
    fst (invoke_map' this i invocables table) !! n = Some definition ->
    exists invocable,
      invocables !! n = Some invocable /\
      invoke_type definition
      = default actionTypes_invoke (invokeConfig_type (invoke_config definition)) /\
      invoke_config definition = toInvokeConfig invocable (invocation_id this (i + n)) /\
      invoke_id definition
      = or_string (invokeConfig_id (invoke_config definition))
                  (invocation_id this (i + n)) /\
      match invokeConfig_src (invoke_config definition) with
      | src_string s => invoke_src definition = s
      | src_implementation _ => invoke_src definition = invoke_id definition
      end.
Proof.
  induction invocables as [|invocable rest IH]; intros i table n d Hn; [done|].
  rewrite invoke_map_cons in Hn. cbn [fst] in Hn. destruct n as [|n].
  - injection Hn as <-. exists invocable. rewrite Nat.add_0_r.
    repeat split; [done..|]. apply (invoke_callback_src this invocable i table).
  - cbn in Hn. destruct (IH _ _ _ _ Hn) as (invocable' & Hl & Hd).
    exists invocable'. split; [done|]. by rewrite <- Nat.add_succ_comm.
Qed.

Lemma invoke_map_length (this : StateNode) (invocables : list Invocable) :
  forall i (table : gmap string Implementation),
    length (fst (invoke_map' this i invocables table)) = length invocables.
Proof.
  induction invocables as [|invocable rest IH]; intros i table; [done|].
  rewrite invoke_map_cons. cbn. by rewrite IH.
Qed.

(** The first anonymous definition with an id that is free gets its
    implementation registered under that id, and it stays. *)
Lemma invoke_map_registers (this : StateNode) (invocables : list Invocable) :
  forall i (table : gmap string Implementation) n definition implementation,
    fst (invoke_map' this i invocables table) !! n = Some definition ->
    invokeConfig_src (invoke_config definition) = src_implementation implementation ->
    inherited (invoke_id definition) = false ->
    table !! invoke_id definition = None ->
    (forall m earlier implementation',
        m < n ->
        fst (invoke_map' this i invocables table) !! m = Some earlier ->
        invokeConfig_src (invoke_config earlier) = src_implementation implementation' ->
        invoke_id earlier <> invoke_id definition) ->
    snd (invoke_map' this i invocables table) !! invoke_id definition
    = Some implementation.
Proof.
  induction invocables as [|invocable rest IH];
    intros i table n d implementation Hn Hsrc Hown Hfree Hfirst; [done|].
  rewrite invoke_map_cons in Hn, Hfirst |- *. cbn [fst snd] in *.
  pose proof (invoke_callback_table this invocable i table) as Htable.
  cbn zeta in Htable.
  set (d0 := fst (invoke_callback' this invocable i table)) in *.
  set (table1 := snd (invoke_callback' this invocable i table)) in *.
  clearbody d0 table1.
  destruct n as [|n].
  - injection Hn as ->. apply invoke_map_keeps.
    rewrite Htable, Hsrc.
    assert (service_found table (invoke_id d) = false) as ->
        by by apply service_found_false.
    apply lookup_insert_eq.
  - cbn in Hn. apply (IH (S i) table1 n d implementation Hn Hsrc Hown).
    + rewrite Htable.
      destruct (invokeConfig_src (invoke_config d0)) as [s|implementation'] eqn:Hhead;
        [done|].
      destruct (service_found table _); [done|].
      rewrite lookup_insert_ne; [done|].
      apply (Hfirst 0 d0 implementation'); [lia|done|done].
    + intros m earlier implementation' Hm Hearlier.
      apply (Hfirst (S m) earlier implementation'); [lia|done].
Qed.

Lemma invoke_computed (this : StateNode) (config_invoke : list Invocable)
      (w : InvokeWorld Implementation) :
  invoke_cache w = None ->
  invoke' this config_invoke w
  = (fst (invoke_map' this 0 config_invoke (services w)),
     Build_InvokeWorld
       (Some (fst (invoke_map' this 0 config_invoke (services w))))
       (snd (invoke_map' this 0 config_invoke (services w)))).
Proof.
  intros Hcache. unfold invoke. rewrite Hcache.
  by destruct (invoke_map' this 0 config_invoke (services w)).
Qed.

(** X16.  The getter never overwrites or removes a registered service:
    every entry of the table is still there afterwards, with the same
    implementation; and an entry that is new is the anonymous
    implementation of one of the returned definitions, stored under that
    definition's id, which is also its src. *)
Theorem invoke_only_adds_anonymous_services
        (this : StateNode) (config_invoke : list Invocable)
        (w : InvokeWorld Implementation) :
  let definitions := fst (invoke' this config_invoke w) in
  let w' := snd (invoke' this config_invoke w) in
  (forall k v, services w !! k = Some v -> services w' !! k = Some v) /\
  (forall k v,
      services w' !! k = Some v ->
      services w !! k = Some v \/
      exists definition,
        definition ∈ definitions /\
        invoke_src definition = k /\ invoke_id definition = k /\
        invokeConfig_src (invoke_config definition) = src_implementation v).
Proof.
  intros definitions w'. subst definitions w'.
  destruct (invoke_cache w) as [cached|] eqn:Hcache.
  { unfold invoke. rewrite Hcache. cbn. split; [done|]. by left. }
  rewrite invoke_computed by done. cbn [fst snd services]. split.
  - intros k v. apply invoke_map_keeps.
  - intros k v. apply invoke_map_new.
Qed.

(** X17.  When the getter computes its result (nothing is cached yet), it
    returns one definition per declared invocation, in order, and caches
    them.  The type tag of a definition is the [type] of its config when
    the config has one, and the tag of invocations otherwise.  A named
    source is returned as it is; an anonymous implementation gets the
    definition's id as src.  That implementation is the one found in the
    service table under the id afterwards when the id is not the name of a
    member every object inherits, was free in the table before, and is not
    the id of an anonymous definition earlier in the list; and under the
    name of an inherited member nothing is ever stored. *)
Theorem invoke_registers_every_anonymous_service
        (this : StateNode) (config_invoke : list Invocable)
        (w : InvokeWorld Implementation) :
  invoke_cache w = None ->
  let definitions := fst (invoke' this config_invoke w) in
  let w' := snd (invoke' this config_invoke w) in
  length definitions = length config_invoke /\
  invoke_cache w' = Some definitions /\
  (forall n definition,
      definitions !! n = Some definition ->
      invoke_type definition
      = default actionTypes_invoke (invokeConfig_type (invoke_config definition)) /\
      match invokeConfig_src (invoke_config definition) with
      | src_string s => invoke_src definition = s
      | src_implementation implementation =>
          invoke_src definition = invoke_id definition /\
          (inherited (invoke_id definition) = false ->
           services w !! invoke_id definition = None ->
           (forall m earlier implementation',
               m < n ->
               definitions !! m = Some earlier ->
               invokeConfig_src (invoke_config earlier)
               = src_implementation implementation' ->
               invoke_id earlier <> invoke_id definition) ->
           services w' !! invoke_id definition = Some implementation)
      end) /\
  (forall k, inherited k = true -> services w' !! k = services w !! k).
Proof.
  intros Hcache definitions w'. subst definitions w'.
  rewrite (invoke_computed this config_invoke w Hcache).
  cbn [fst snd services invoke_cache].
  split; [apply invoke_map_length|]. split; [done|]. split.
  - intros n d Hn.
    destruct (invoke_map_lookup _ _ _ _ _ _ Hn) as (? & _ & Htype & _ & _ & Hsrc).
    split; [done|].
    destruct (invokeConfig_src (invoke_config d)) as [s|implementation] eqn:Hd;
      [done|].
    split; [done|]. intros Hown Hfree Hfirst.
    by apply (invoke_map_registers this config_invoke 0 (services w) n d).
  - intros k Hk. by apply invoke_map_inherited.
Qed.

(** X18.  Registration is idempotent.  Once the getter has run, reading it
    again returns the cached definitions and changes nothing; and even
    without the cache, running the computation again on the table it left
    returns the same definitions and leaves that table as it is. *)
Theorem invoke_is_idempotent
        (this : StateNode) (config_invoke : list Invocable)
        (w : InvokeWorld Implementation) :
  invoke_cache w = None ->
  let definitions := fst (invoke' this config_invoke w) in
  let w' := snd (invoke' this config_invoke w) in
  invoke' this config_invoke w' = (definitions, w') /\
  invoke_map' this 0 config_invoke (services w') = (definitions, services w').
Proof.
  intros Hcache definitions w'. subst definitions w'.
  rewrite (invoke_computed this config_invoke w Hcache).
  cbn [fst snd services]. split; [done|].
  set (table' := snd (invoke_map' this 0 config_invoke (services w))).
  rewrite (surjective_pairing (invoke_map' this 0 config_invoke table')).
  f_equal; [apply invoke_map_definitions|].
  apply invoke_map_fixed.
  rewrite (invoke_map_definitions this config_invoke 0 table' (services w)).
  apply invoke_map_settled.
Qed.

(** X19.  The definition at position [n] carries the id of its config if
    that is truthy, else the id generated from the node's id and [n]; the
    ids generated for two different positions differ. *)
Theorem invoke_ids_come_from_the_position
        (this : StateNode) (config_invoke : list Invocable)
        (w : InvokeWorld Implementation) :
  invoke_cache w = None ->
  (forall n definition,
      fst (invoke' this config_invoke w) !! n = Some definition ->
      invoke_id definition
      = or_string (invokeConfig_id (invoke_config definition))
                  (invocation_id this n)) /\
  (forall n m, invocation_id this n = invocation_id this m -> n = m).
Proof.
  intros Hcache. split; [|apply invocation_id_inj].
  intros n d. rewrite invoke_computed by done. cbn [fst]. intros Hn.
  by destruct (invoke_map_lookup _ _ _ _ _ _ Hn) as (? & _ & _ & _ & ? & _).
Qed.

End InvokeFacts.

(** * Further properties of the initial state value *)

Lemma mapFilterValues_initial_throws
      (entries : list (string * (StateNode * outcome StateValue))) (message : string) :
  mapFilterValues_initial entries = Throws message ->
  exists entry, entry ∈ entries /\ snd (snd entry) = Throws message.
Proof.
  induction entries as [|[k [n o]] entries IH]; [done|]. cbn.
  assert (Hrest : mapFilterValues_initial entries = Throws message ->
                  exists entry, entry ∈ (k, (n, o)) :: entries /\
                                snd (snd entry) = Throws message).
  { intros (entry & Hin & Hentry)%IH. exists entry.
    split; [apply elem_of_cons; by right|done]. }
  destruct (type n); try done.
  all: destruct o as [v|m];
    [destruct (mapFilterValues_initial entries); [done|exact Hrest]|].
  all: intros [= ->]; exists (k, (n, Throws message));
    split; [apply elem_of_cons; by left|done].
Qed.

Lemma get_state_Some_elem_of {A} (entries : list (string * A)) (k : string) (a : A) :
  get_state entries k = Some a -> exists k', (k', a) ∈ entries.
Proof.
  induction entries as [|[k' a'] entries IH]; [done|]. cbn.
  destruct (String.eqb k' k).
  - intros [= ->]. exists k'. apply elem_of_cons. by left.
  - intros (k'' & Hin)%IH. exists k''. apply elem_of_cons. by right.
Qed.

Lemma initialStateValue_throw_below (this : StateNode) (message : string) :
  initialStateValue this = Throws message ->
  (exists k,
      initial this = Some k /\ get_state (states this) k = None /\
      message = "Initial state '" +:+ k +:+ "' not found on '" +:+ key this +:+ "'") \/
  exists entry,
    entry ∈ states this /\ initialStateValue (snd entry) = Throws message.
Proof.
  rewrite initialStateValue_unfold. cbn zeta.
  assert (Hparallel :
            match
              mapFilterValues_initial
                (map (fun entry => (fst entry, (snd entry, initialStateValue (snd entry))))
                     (states this))
            with
            | Returns entries => Returns (obj entries)
            | Throws m => Throws m
            end = Throws message ->
            exists entry,
              entry ∈ states this /\ initialStateValue (snd entry) = Throws message).
  { destruct (mapFilterValues_initial _) as [vs|m] eqn:Hmap; [done|].
    intros [= ->]. apply mapFilterValues_initial_throws in Hmap as (e & Hin & He).
    apply list_elem_of_fmap in Hin as (entry & -> & Hin). by exists entry. }
  assert (Hother :
            match initial this with
            | Some initial_ =>
                match
                  get_state
                    (map (fun entry =>
                            (fst entry, (snd entry, initialStateValue (snd entry))))
                         (states this)) initial_
                with
                | Some (child, child_initial) =>
                    if isLeafNode child then Returns (str initial_)
                    else match child_initial with
                         | Returns v => Returns (obj [(initial_, v)])
                         | Throws m => Throws m
                         end
                | None =>
                    if inherited initial_ then Returns (obj [(initial_, undefined)])
                    else
                      Throws ("Initial state '" +:+ initial_ +:+ "' not found on '"
                                +:+ key this +:+ "'")
                end
            | None => Returns undefined
            end = Throws message ->
            (exists k,
                initial this = Some k /\ get_state (states this) k = None /\
                message = "Initial state '" +:+ k +:+ "' not found on '"
                            +:+ key this +:+ "'") \/
            exists entry,
              entry ∈ states this /\ initialStateValue (snd entry) = Throws message).
  { destruct (initial this) as [k|]; [|done].
    rewrite (get_state_map (fun n => (n, initialStateValue n))).
    destruct (get_state (states this) k) as [child|] eqn:Hchild; cbn.
    - destruct (isLeafNode child); [done|].
      destruct (initialStateValue child) as [v|m] eqn:Hm; [done|].
      intros [= ->]. right.
      apply get_state_Some_elem_of in Hchild as (k' & Hin). by exists (k', child).
    - destruct (inherited k); [done|]. intros [= <-]. left. by exists k. }
  destruct (type this); (exact Hother || (intros H; right; by apply Hparallel)).
Qed.

(** X20.  [initialStateValue] throws for one reason only: the node itself
    or a node below it declares an initial key that names none of its
    children, and the message is the one of lines 478-480 for that node.
    Hence it returns for every tree in which each declared initial key
    names a child. *)
Theorem initialStateValue_throws_only_for_a_dangling_initial_key (this : StateNode) :
  (forall message,
      initialStateValue this = Throws message ->
      exists n k,
        n ∈ this :: descendants this /\
        initial n = Some k /\ get_state (states n) k = None /\
        message = "Initial state '" +:+ k +:+ "' not found on '" +:+ key n +:+ "'") /\
  ((forall n k, n ∈ this :: descendants this -> initial n = Some k ->
                is_Some (get_state (states n) k)) ->
   exists v, initialStateValue this = Returns v).
Proof.
  assert (Hthrow : forall message,
             initialStateValue this = Throws message ->
             exists n k,
               n ∈ this :: descendants this /\
               initial n = Some k /\ get_state (states n) k = None /\
               message = "Initial state '" +:+ k +:+ "' not found on '"
                           +:+ key n +:+ "'").
  { induction this as [this IH] using StateNode_nested_ind. intros message Hm.
    apply initialStateValue_throw_below in Hm as [(k & Hk & Hnone & ->)|(entry & Hin & Hm)].
    - exists this, k. split; [apply elem_of_cons; by left|done].
    - rewrite Forall_forall in IH.
      destruct (IH _ Hin _ Hm) as (n & k & Hn & Hrest).
      exists n, k. split; [|done]. apply elem_of_cons. right.
      rewrite descendants_unfold, children_nodes_elem_of.
      exists entry. split; [done|]. by apply elem_of_cons in Hn. }
  split; [done|]. intros Hwf.
  destruct (initialStateValue this) as [v|m] eqn:Hv; [by exists v|].
  destruct (Hthrow _ eq_refl) as (n & k & Hn & Hk & Hnone & _).
  destruct (Hwf _ _ Hn Hk) as [child Hchild]. congruence.
Qed.

(** * Instances of the further properties *)

(** On [DENY] at [idle] the only candidate is rejected. *)
Lemma next_undefined_iff_no_candidate_passes_witness :
  Strict.next Example.idle Example.stateAtIdle (Sample.event "DENY") Example.fresh
  = (Returns None,
     world_after Strict.getCandidates Example.fresh Example.idle "DENY"
                 (guards_of [Strict.DENY])).
Proof.
  apply (proj1 (next_undefined_iff_no_candidate_passes
                  Strict.getCandidates Sample.evaluateGuard Sample.isStateId
                  Strict.matches_state_id Sample.matches_relative
                  getRelativeStateNodes_spec nodesFromChild_spec
                  Example.idle Example.stateAtIdle (Sample.event "DENY") Example.fresh
                  eq_refl eq_refl)).
  constructor; [|constructor].
  exists true, false. repeat split; reflexivity.
Defined.

(** On [GO] at [idle] the result carries the second transition. *)
Lemma next_result_comes_from_first_passing_candidate_witness :
  exists pre post,
    candidates_for Sample.getCandidates Example.fresh Example.idle "GO"
    = pre ++ Sample.GO2 :: post /\
    Forall (rejected Sample.evaluateGuard Sample.isStateId Sample.matches_state_id
                     Sample.matches_relative Example.idle Example.stateAtIdle
                     (Sample.event "GO")) pre /\
    passes Sample.evaluateGuard Sample.isStateId Sample.matches_state_id
           Sample.matches_relative Example.idle Example.stateAtIdle
           (Sample.event "GO") Sample.GO2 /\
    resolve getRelativeStateNodes_spec nodesFromChild_spec
            Example.idle Example.stateAtIdle Sample.GO2
    = resolve getRelativeStateNodes_spec nodesFromChild_spec
              Example.idle Example.stateAtIdle Sample.GO2 /\
    guard_calls (snd (Sample.next Example.idle Example.stateAtIdle
                                  (Sample.event "GO") Example.fresh))
    = [] ++ guards_of (pre ++ [Sample.GO2]).
Proof.
  apply (next_result_comes_from_first_passing_candidate
           Sample.getCandidates Sample.evaluateGuard Sample.isStateId
           Sample.matches_state_id Sample.matches_relative
           getRelativeStateNodes_spec nodesFromChild_spec
           Example.idle Example.stateAtIdle (Sample.event "GO") Example.fresh
           (resolve getRelativeStateNodes_spec nodesFromChild_spec
                    Example.idle Example.stateAtIdle Sample.GO2)
           Sample.GO2).
  - reflexivity.
  - reflexivity.
Defined.

(** On [LOST] at [idle] the "in" condition throws; its message comes out
    as it is and the guard [g2] is not called. *)
Lemma next_in_condition_throw_propagates_witness :
  Strict.next Example.idle Example.stateAtIdle (Sample.event "LOST") Example.fresh
  = (Throws "Child state '#machine.nowhere' does not exist",
     world_after Strict.getCandidates Example.fresh Example.idle "LOST"
                 (guards_of [])).
Proof.
  apply (next_in_condition_throw_propagates
           Strict.getCandidates Sample.evaluateGuard Sample.isStateId
           Strict.matches_state_id Sample.matches_relative
           getRelativeStateNodes_spec nodesFromChild_spec
           Example.idle Example.stateAtIdle (Sample.event "LOST") Example.fresh
           [] [] Strict.LOST "Child state '#machine.nowhere' does not exist").
  - reflexivity.
  - reflexivity.
  - reflexivity.
  - constructor.
  - reflexivity.
Defined.

(** After [GO] at [idle] the cache holds the two [GO] transitions and
    nothing else. *)
Lemma next_caches_only_the_event_witness :
  let w' := snd (Sample.next Example.idle Example.stateAtIdle
                             (Sample.event "GO") Example.fresh) in
  candidates w' !! "GO" = Some [Sample.GO1; Sample.GO2] /\
  (forall eventName, eventName <> "GO" ->
                     candidates w' !! eventName = candidates Example.fresh !! eventName) /\
  exists gs, guard_calls w' = [] ++ gs.
Proof.
  apply (next_caches_only_the_event
           Sample.getCandidates Sample.evaluateGuard Sample.isStateId
           Sample.matches_state_id Sample.matches_relative
           getRelativeStateNodes_spec nodesFromChild_spec
           Example.idle Example.stateAtIdle (Sample.event "GO") Example.fresh).
  - reflexivity.
  - reflexivity.
Defined.

(** The result of [START] at [idle] in the worked machine. *)
Lemma next_result_shape_witness :
  let r := StateTransition.Build [Example.START] [Example.active] []
                                 [Example.idle] Example.stateAtIdle [] in
  StateTransition.source r = Example.stateAtIdle /\
  ((StateTransition.transitions r = [] /\ StateTransition.actions r = []) \/
   exists c, StateTransition.transitions r = [c] /\
             StateTransition.actions r = TransitionDefinition.actions c) /\
  (StateTransition.exitSet r = [] \/ StateTransition.exitSet r = [Example.idle]) /\
  (StateTransition.exitSet r = [] -> StateTransition.entrySet r = []).
Proof.
  apply (next_result_shape
           (getCandidates_spec Example.formatTransitions) Example.no_guard
           (fun _ => false) Example.no_in_condition_id Example.no_in_condition
           getRelativeStateNodes_spec nodesFromChild_spec
           Example.idle Example.stateAtIdle (Build_SCXML_Event "START" tt)
           Example.fresh).
  reflexivity.
Defined.

(** The handlers of [Surface] are grouped by event type; those of
    [Nullish], which handle an event named [toString], make the getter
    raise. *)
Lemma on_groups_transitions_by_event_type_witness :
  (exists map,
      on Surface.formatTransitions Example.idle = Returns map /\
      (forall e,
          map !! e
          = match filter (fun t => TransitionDefinition.eventType t = e)
                         (transitions Surface.formatTransitions Example.idle) with
            | [] => None
            | t :: rest => Some (t :: rest)
            end) /\
      (forall transition,
          transition ∈ transitions Surface.formatTransitions Example.idle ->
          exists bucket,
            map !! TransitionDefinition.eventType transition = Some bucket /\
            transition ∈ bucket)) /\
  on Nullish.formatTransitions Example.idle = Throws TypeError_push_is_not_a_function.
Proof.
  split.
  - apply (proj1 (on_groups_transitions_by_event_type
                    Surface.formatTransitions Example.idle)).
    unfold transitions, Surface.formatTransitions.
    repeat constructor.
  - apply (proj2 (on_groups_transitions_by_event_type
                    Nullish.formatTransitions Example.idle)).
    unfold transitions, Nullish.formatTransitions.
    apply Exists_cons_tl, Exists_cons_tl, Exists_cons_hd. reflexivity.
Defined.

(** In [Surface], [QUIET] is a key of [on] and no own event. *)
Lemma ownEvents_are_the_effective_keys_of_on_witness :
  "QUIET" ∈ ownEvents Surface.formatTransitions Example.idle <->
  exists bucket transition,
    Surface.on_idle !! "QUIET" = Some bucket /\ transition ∈ bucket /\
    (is_Some (TransitionDefinition.target transition) \/
     TransitionDefinition.actions transition <> [] \/
     TransitionDefinition.internal transition = false).
Proof.
  apply (ownEvents_are_the_effective_keys_of_on
           Surface.formatTransitions Example.idle Surface.on_idle "QUIET").
  vm_compute. reflexivity.
Defined.

(** The colliding invocations of [Services]. *)
Lemma invoke_registers_every_anonymous_service_witness :
  let definitions :=
    fst (invoke Services.toInvokeConfig "xstate.invoke" Example.idle
                Services.colliding_config_invoke Services.before) in
  let w' :=
    snd (invoke Services.toInvokeConfig "xstate.invoke" Example.idle
                Services.colliding_config_invoke Services.before) in
  length definitions = 4 /\
  invoke_cache w' = Some definitions /\
  (forall n definition,
      definitions !! n = Some definition ->
      invoke_type definition
      = default "xstate.invoke" (invokeConfig_type (invoke_config definition)) /\
      match invokeConfig_src (invoke_config definition) with
      | src_string s => invoke_src definition = s
      | src_implementation implementation =>
          invoke_src definition = invoke_id definition /\
          (inherited (invoke_id definition) = false ->
           services Services.before !! invoke_id definition = None ->
           (forall m earlier implementation',
               m < n ->
               definitions !! m = Some earlier ->
               invokeConfig_src (invoke_config earlier)
               = src_implementation implementation' ->
               invoke_id earlier <> invoke_id definition) ->
           services w' !! invoke_id definition = Some implementation)
      end) /\
  (forall k, inherited k = true -> services w' !! k = services Services.before !! k).
Proof.
  apply (invoke_registers_every_anonymous_service
           Services.toInvokeConfig "xstate.invoke" Example.idle
           Services.colliding_config_invoke Services.before).
  reflexivity.
Defined.

Lemma invoke_is_idempotent_witness :
  let definitions := fst (Services.invoke Services.before) in
  let w' := snd (Services.invoke Services.before) in
  Services.invoke w' = (definitions, w') /\
  invoke_map Services.toInvokeConfig "xstate.invoke" Example.idle 0
             Services.config_invoke (services w')
  = (definitions, services w').
Proof.
  apply (invoke_is_idempotent
           Services.toInvokeConfig "xstate.invoke" Example.idle
           Services.config_invoke Services.before).
  reflexivity.
Defined.

Lemma invoke_ids_come_from_the_position_witness :
  (forall n definition,
      fst (Services.invoke Services.before) !! n = Some definition ->
      invoke_id definition
      = or_string (invokeConfig_id (invoke_config definition))
                  (invocation_id Example.idle n)) /\
  (forall n m, invocation_id Example.idle n = invocation_id Example.idle m -> n = m).
Proof.
  apply (invoke_ids_come_from_the_position
           Services.toInvokeConfig "xstate.invoke" Example.idle
           Services.config_invoke Services.before).
  reflexivity.
Defined.
